(** * Blossomer GTM frontend: entity normalisation, local account store,
      auth-change effect and rate-limit header parsing

    A shallow embedding of the TypeScript sources
      - [frontend/src/lib/campaignService.ts]: normalizeCampaignResponse;
      - [frontend/src/lib/accountService.ts]: the target-account local
        store and normalizePersonaResponse;
      - the auth module ([./auth] of [frontend/src/lib]): the global auth
        state, the auth-change effect of useAuthState, endpoint routing
        and parseRateLimitHeaders;
    together with the properties the specification states about them. *)

From Stdlib Require Import ZArith Ascii String.
From stdpp Require Import base option list strings gmap pretty.

Local Open Scope string_scope.
Local Open Scope list_scope.

(** ** JavaScript values

    A JSON-like JavaScript value.  An object is the list of its own
    properties in insertion order, the order JavaScript keeps for string
    keys that are not array indices; the property keys of an object are
    pairwise distinct, which every object built by [obj_set] below
    satisfies. *)
Module Js.

#[warnings="-register-all"]
Inductive value : Type :=
| VUndefined
| VNull
| VBool (b : bool)
| VNum (n : Z)
| VStr (s : string)
| VArr (xs : list value)
| VObj (fields : list (string * value)).

Definition obj : Type := list (string * value).

(** The structural induction principle that also descends into arrays
    and property lists. *)
Section value_induction.
Variable P : value → Prop.
Hypothesis Hundef : P VUndefined.
Hypothesis Hnull : P VNull.
Hypothesis Hbool : ∀ b, P (VBool b).
Hypothesis Hnum : ∀ n, P (VNum n).
Hypothesis Hstr : ∀ s, P (VStr s).
Hypothesis Harr : ∀ xs, Forall P xs → P (VArr xs).
Hypothesis Hobj : ∀ fs, Forall (λ kv, P kv.2) fs → P (VObj fs).

Fixpoint value_rect_nested (v : value) : P v :=
  match v with
  | VUndefined => Hundef
  | VNull => Hnull
  | VBool b => Hbool b
  | VNum n => Hnum n
  | VStr s => Hstr s
  | VArr xs =>
      Harr xs ((fix go (l : list value) : Forall P l :=
                  match l with
                  | [] => Forall_nil_2 P
                  | x :: l' => Forall_cons_2 P x l' (value_rect_nested x) (go l')
                  end) xs)
  | VObj fs =>
      Hobj fs ((fix go (l : list (string * value)) : Forall (λ kv, P kv.2) l :=
                  match l with
                  | [] => Forall_nil_2 _
                  | kv :: l' =>
                      Forall_cons_2 (λ kv, P kv.2) kv l'
                        (value_rect_nested kv.2) (go l')
                  end) fs)
  end.
End value_induction.

(** JavaScript truthiness ([!!v], and the left operand of [||], [&&]). *)
Definition truthy (v : value) : bool :=
  match v with
  | VUndefined | VNull => false
  | VBool b => b
  | VNum n => negb (n =? 0)%Z
  | VStr s => negb (String.eqb s "")
  | VArr _ | VObj _ => true
  end.

(** [a || b]. *)
Definition js_or (a b : value) : value := if truthy a then a else b.

(** Property names of an object, in order. *)
Definition keys (o : obj) : list string := o.*1.

(** [o[k]] as an own-property lookup: [None] when [o] has no property [k]. *)
Fixpoint obj_lookup (k : string) (o : obj) : option value :=
  match o with
  | [] => None
  | (k', v) :: o' => if decide (k = k') then Some v else obj_lookup k o'
  end.

(** [o.k]: reading an absent property gives [undefined]. *)
Definition obj_get (k : string) (o : obj) : value :=
  default VUndefined (obj_lookup k o).

(** [o[k] = v]: an existing property keeps its position, a new one goes
    last. *)
Fixpoint obj_set (k : string) (v : value) (o : obj) : obj :=
  match o with
  | [] => [(k, v)]
  | (k', v') :: o' =>
      if decide (k = k') then (k, v) :: o' else (k', v') :: obj_set k v o'
  end.

(** The properties an object-literal spread [...v] copies: the own
    properties of an object, the indexed elements of an array, the
    characters of a string, and nothing for the other primitives. *)
Fixpoint string_chars (s : string) : list string :=
  match s with
  | EmptyString => []
  | String c s' => String c EmptyString :: string_chars s'
  end.

Definition spread_entries (v : value) : obj :=
  match v with
  | VObj fs => fs
  | VArr xs => imap (λ i x, (pretty i, x)) xs
  | VStr s => imap (λ i c, (pretty i, VStr c)) (string_chars s)
  | _ => []
  end.

(** [{...o, ...es}] continued from the partial literal [o]: the entries
    are assigned left to right. *)
Definition spread (o : obj) (es : obj) : obj :=
  fold_left (λ acc kv, obj_set kv.1 kv.2 acc) es o.

End Js.
Import Js.

(** ** Key Normalizer ([lib/utils.ts], not part of the sources at hand) *)

(** ASCII lower-case letters and their capitals. *)
Definition is_lower (c : ascii) : bool :=
  let n := nat_of_ascii c in (97 <=? n)%nat && (n <=? 122)%nat.

Definition to_upper (c : ascii) : ascii :=
  if is_lower c then ascii_of_nat (nat_of_ascii c - 32) else c.

(** Modelled from the spec: the key rewriting of the Key Normalizer, whose
    source file [lib/utils.ts] is missing.  Section 4.1 asks that a key
    written in snake_case is rewritten to camelCase and that a key already
    in camelCase is left alone: every underscore that is followed by a
    lower-case letter is dropped and the letter is capitalised, all other
    characters (also leading and trailing underscores that no lower-case
    letter follows) are kept. *)
Fixpoint snakeToCamel (s : string) : string :=
  match s with
  | EmptyString => EmptyString
  | String c rest =>
      match rest with
      | String d rest' =>
          if Ascii.eqb c "_" && is_lower d
          then String (to_upper d) (snakeToCamel rest')
          else String c (snakeToCamel rest)
      | EmptyString => String c EmptyString
      end
  end.

(** Modelled from the spec: [transformKeysToCamelCase] of the missing
    [lib/utils.ts].  Section 4.1: a deep copy in which every mapping key is
    rewritten by [snakeToCamel], list elements are processed recursively
    and scalars pass through unchanged.  The copy of a mapping is built
    property by property, so two keys that are rewritten to the same name
    leave one property, holding the later value. *)
Fixpoint transformKeysToCamelCase (v : value) : value :=
  match v with
  | VArr xs => VArr (map transformKeysToCamelCase xs)
  | VObj fs =>
      VObj (fold_left
              (λ acc kv, obj_set (snakeToCamel kv.1) (transformKeysToCamelCase kv.2) acc)
              fs [])
  | _ => v
  end.

(** The step of the Key Normalizer on one property of a mapping. *)
Definition camel_step (acc : obj) (kv : string * value) : obj :=
  obj_set (snakeToCamel kv.1) (transformKeysToCamelCase kv.2) acc.

(** A property list whose names and values the Key Normalizer leaves
    alone. *)
Definition settled (fs : obj) : Prop :=
  Forall (λ kv, snakeToCamel kv.1 = kv.1 ∧ transformKeysToCamelCase kv.2 = kv.2) fs.

(** ** Response Normalizers *)

(** [normalizePersonaResponse], lib/accountService.ts, lines 158-168:
<<
  const data = transformKeysToCamelCase(persona.data || {});
  const normalized = { ...persona, ...data, data };
>> *)
Definition normalizePersonaResponse (persona : obj) : obj :=
  let data := transformKeysToCamelCase (js_or (obj_get "data" persona) (VObj [])) in
  obj_set "data" data
    (spread (spread [] persona) (spread_entries data)).

(** [normalizeCampaignResponse], lib/campaignService.ts, lines 13-24:
<<
  const data = transformKeysToCamelCase(campaign.data || {});
  const normalized = { ...campaign, ...data, data, type: campaign.type };
>> *)
Definition normalizeCampaignResponse (campaign : obj) : obj :=
  let data := transformKeysToCamelCase (js_or (obj_get "data" campaign) (VObj [])) in
  obj_set "type" (obj_get "type" campaign)
    (obj_set "data" data
       (spread (spread [] campaign) (spread_entries data))).

(** The key-normalized data of an entity, the constant [data] of both
    normalizers: [transformKeysToCamelCase(x.data || {})]. *)
Definition normalized_data (x : obj) : value :=
  transformKeysToCamelCase (js_or (obj_get "data" x) (VObj [])).

(** The round-trip scenario of the specification (section 8, item 7). *)
Definition scenario_raw : obj :=
  [("id", VStr "1"); ("type", VStr "email");
   ("data", VObj [("target_persona_name", VStr "VP Sales")])].

Definition scenario_normalized : obj :=
  [("id", VStr "1"); ("type", VStr "email");
   ("data", VObj [("targetPersonaName", VStr "VP Sales")]);
   ("targetPersonaName", VStr "VP Sales")].

(** A raw entity whose nested data carries its own [id] and [type]. *)
Definition colliding_raw : obj :=
  [("id", VStr "1"); ("type", VStr "email");
   ("data", VObj [("id", VStr "2"); ("type", VStr "sms")])].

(** ** Auth state and endpoint routing (the auth module) *)

Record UserInfo : Type := {
  user_id : string;
  email : string;
  name : option string;
  tier : option string;
  rate_limit_exempt : option bool;
  created_at : option string;
  last_used : option string;
}.

(** [token: string | null] is an [option string]. *)
Record AuthState : Type := {
  isAuthenticated : bool;
  token : option string;
  userInfo : option UserInfo;
}.

(** The value [globalAuthState] and [prevAuthState] start from. *)
Definition initialAuthState : AuthState :=
  {| isAuthenticated := false; token := None; userInfo := None |}.

(** The module variable [globalAuthState] is passed explicitly: its one
    writer and its reader. *)
Definition updateGlobalAuthState (state : AuthState) (globalAuthState : AuthState)
  : AuthState := state.

Definition getAuthState (globalAuthState : AuthState) : AuthState := globalAuthState.

(** [!!s] for [s : string | null]. *)
Definition truthy_string (s : option string) : bool :=
  match s with
  | None => false
  | Some t => negb (String.eqb t "")
  end.

(** [return !!authState.isAuthenticated && !!authState.token]. *)
Definition shouldUseAuthenticatedEndpoints (globalAuthState : AuthState) : bool :=
  let authState := getAuthState globalAuthState in
  isAuthenticated authState && truthy_string (token authState).

(** [return shouldUseAuthenticatedEndpoints() ? '/api' : '/demo']. *)
Definition getApiBasePath (globalAuthState : AuthState) : string :=
  if shouldUseAuthenticatedEndpoints globalAuthState then "/api" else "/demo".

(** ** The auth-change effect of [useAuthState] *)

(** Modelled from the spec: the draft record of the missing
    [lib/draftManager.ts].  Section 3: a draft is an entity with a
    [tempId] instead of an [id]. *)
Record Draft : Type := {
  tempId : string;
  draftData : obj;
}.

(** A query of the React Query cache. *)
Record Query : Type := {
  queryKey : list string;
  queryData : value;
  isInvalidated : bool;
}.

(** The calls the effect makes on its two collaborators. *)
Inductive Call : Type :=
| Call_clearDraftsOnAuthChange (wasUnauthenticated isNowAuthenticated : bool)
| Call_clear
| Call_invalidateQueries (key : list string).

(** What the effect acts on: the Draft Manager's store (entity kind to
    drafts), the query cache, and the log of the calls made so far. *)
Record World : Type := {
  drafts : gmap string (list Draft);
  queryCache : list Query;
  calls : list Call;
}.

Definition log (c : Call) (w : World) : World :=
  {| drafts := drafts w; queryCache := queryCache w; calls := calls w ++ [c] |}.

(** Modelled from the spec: [DraftManager.getDrafts] of the missing
    [lib/draftManager.ts].  Section 4.3: all local drafts of a kind, the
    empty list if none exist. *)
Definition getDrafts (kind : string) (w : World) : list Draft :=
  default [] (drafts w !! kind).

(** Modelled from the spec: [DraftManager.clearDraftsOnAuthChange] of the
    missing [lib/draftManager.ts].  Section 4.3: going from unauthenticated
    to authenticated clears the drafts, going from authenticated to
    unauthenticated clears them as well, and a same-state call is a no-op.
    The first argument is the negated previous flag, so a transition is a
    call with two equal arguments. *)
Definition clearDraftsOnAuthChange (wasUnauthenticated isNowAuthenticated : bool)
    (w : World) : World :=
  let w := log (Call_clearDraftsOnAuthChange wasUnauthenticated isNowAuthenticated) w in
  if Bool.eqb wasUnauthenticated isNowAuthenticated
  then {| drafts := ∅; queryCache := queryCache w; calls := calls w |}
  else w.

(** [queryClient.clear()] of React Query: every query leaves the cache. *)
Definition queryClient_clear (w : World) : World :=
  let w := log Call_clear w in
  {| drafts := drafts w; queryCache := []; calls := calls w |}.

(** [queryClient.invalidateQueries({ queryKey })] of React Query: the
    cached queries whose key starts with [queryKey] are marked invalidated. *)
Definition queryClient_invalidateQueries (key : list string) (w : World) : World :=
  let w := log (Call_invalidateQueries key) w in
  {| drafts := drafts w;
     queryCache :=
       map (λ q, if bool_decide (key `prefix_of` queryKey q)
                 then {| queryKey := queryKey q; queryData := queryData q;
                         isInvalidated := true |}
                 else q) (queryCache w);
     calls := calls w |}.

(** Statements run one after the other. *)
Definition seq_eff (f g : World → World) : World → World := λ w, g (f w).
Infix ">>>" := seq_eff (at level 61, left associativity).

Definition skip : World → World := λ w, w.

(** The body of the third effect of [useAuthState], lines 310-337 of the
    auth module; [prevAuthState] is the content of the ref of that name,
    returned as the effect leaves it:
<<
  const previousAuthState = prevAuthState.current;
  const wasUnauthenticated = !previousAuthState.isAuthenticated;
  const isNowAuthenticated = authState.isAuthenticated;
  if (wasUnauthenticated !== !authState.isAuthenticated) {
    DraftManager.clearDraftsOnAuthChange(wasUnauthenticated, isNowAuthenticated);
    queryClient.clear();
    queryClient.invalidateQueries({ queryKey: ['company'] });
    queryClient.invalidateQueries({ queryKey: ['companies'] });
  }
  prevAuthState.current = authState;
>> *)
Definition authChangeEffect (prevAuthState authState : AuthState) (w : World)
  : AuthState * World :=
  let previousAuthState := prevAuthState in
  let wasUnauthenticated := negb (isAuthenticated previousAuthState) in
  let isNowAuthenticated := isAuthenticated authState in
  let body :=
    if negb (Bool.eqb wasUnauthenticated (negb (isAuthenticated authState)))
    then clearDraftsOnAuthChange wasUnauthenticated isNowAuthenticated >>>
         queryClient_clear >>>
         queryClient_invalidateQueries ["company"] >>>
         queryClient_invalidateQueries ["companies"]
    else skip in
  (authState, body w).

(** The state React keeps for the hook between renders: the ref
    [prevAuthState] and the value of the dependency
    [authState.isAuthenticated] at the last run of the effect ([None]
    before the component is mounted; the other dependency, [queryClient],
    is the one client of the application and never changes). *)
Record HookState : Type := {
  prevAuthState : AuthState;
  effectDeps : option bool;
}.

Definition mountHook : HookState :=
  {| prevAuthState := initialAuthState; effectDeps := None |}.

(** One render of [useAuthState] with the auth state [authState]: React
    runs the effect on mount and whenever a dependency changed. *)
Definition render (authState : AuthState) (hw : HookState * World)
  : HookState * World :=
  let (h, w) := hw in
  if bool_decide (effectDeps h = Some (isAuthenticated authState))
  then (h, w)
  else
    let (ref, w') := authChangeEffect (prevAuthState h) authState w in
    ({| prevAuthState := ref; effectDeps := Some (isAuthenticated authState) |}, w').

(** The renders of a session, oldest first. *)
Definition renders (states : list AuthState) (hw : HookState * World)
  : HookState * World :=
  fold_left (λ acc authState, render authState acc) states hw.

(** The four calls the effect makes when the flag flips. *)
Definition crossing_calls (previous current : AuthState) : list Call :=
  [ Call_clearDraftsOnAuthChange (negb (isAuthenticated previous))
      (isAuthenticated current);
    Call_clear;
    Call_invalidateQueries ["company"];
    Call_invalidateQueries ["companies"] ].

(** After a render of the state [a] the ref and the recorded dependency
    both carry the flag of [a]. *)
Definition hook_synced (h : HookState) (a : AuthState) : Prop :=
  effectDeps h = Some (isAuthenticated a)
  ∧ isAuthenticated (prevAuthState h) = isAuthenticated a.

(** The ref never disagrees with the recorded dependency. *)
Definition hook_inv (h : HookState) : Prop :=
  ∀ b, effectDeps h = Some b → isAuthenticated (prevAuthState h) = b.

(** Sample states for the examples below. *)
Definition loggedOut : AuthState := initialAuthState.

Definition loggedIn : AuthState :=
  {| isAuthenticated := true; token := Some "tok";
     userInfo := Some {| user_id := "u1"; email := "u1@example.com"; name := None;
                         tier := None; rate_limit_exempt := None;
                         created_at := None; last_used := None |} |}.

Definition loggedInRefreshed : AuthState :=
  {| isAuthenticated := true; token := Some "tok2"; userInfo := userInfo loggedIn |}.

Definition sampleWorld : World :=
  {| drafts := {[ "account" := [ {| tempId := "temp_1"; draftData := [] |} ] ]};
     queryCache := [ {| queryKey := ["company"; "c1"]; queryData := VNull;
                        isInvalidated := false |} ];
     calls := [] |}.

(** ** Rate-limit headers (the auth module, lines 387-411) *)

(** The header list of a response, as (name, value) pairs in the order
    received. *)
Definition Headers : Type := list (string * string).

Record Response : Type := {
  headers : Headers;
}.

Definition ascii_lower (c : ascii) : ascii :=
  let n := nat_of_ascii c in
  if (65 <=? n)%nat && (n <=? 90)%nat then ascii_of_nat (n + 32) else c.

Fixpoint lower (s : string) : string :=
  match s with
  | EmptyString => EmptyString
  | String c s' => String (ascii_lower c) (lower s')
  end.

(** [headers.get(name)] of the Fetch standard: header names compare
    without regard to case, the values of all headers of that name are
    joined with a comma and a space, and [null] is returned when there is
    none. *)
Definition headers_get (name : string) (h : Headers) : option string :=
  match filter (λ nv, lower nv.1 = lower name) h with
  | [] => None
  | nv :: more => Some (fold_left (λ acc nv', acc +:+ ", " +:+ nv'.2) more nv.2)
  end.

(** A JavaScript number that came out of [parseInt]: [NaN], or the Number
    nearest to an integer (the integer itself up to 2^53). *)
Inductive Number : Type :=
| NaN
| Num (z : Z).

Definition is_white_space (c : ascii) : bool :=
  let n := nat_of_ascii c in
  ((9 <=? n)%nat && (n <=? 13)%nat) || (n =? 32)%nat || (n =? 160)%nat.

Fixpoint trim_start (s : string) : string :=
  match s with
  | String c s' => if is_white_space c then trim_start s' else s
  | EmptyString => EmptyString
  end.

Definition digit_of (c : ascii) : option Z :=
  let n := nat_of_ascii c in
  if (48 <=? n)%nat && (n <=? 57)%nat then Some (Z.of_nat (n - 48)) else None.

(** The value of the longest prefix of decimal digits, [None] when the
    text does not start with a digit. *)
Fixpoint digits_prefix (s : string) (acc : option Z) : option Z :=
  match s with
  | String c s' =>
      match digit_of c with
      | Some d => digits_prefix s' (Some (10 * default 0%Z acc + d)%Z)
      | None => acc
      end
  | EmptyString => acc
  end.

(** [parseInt(s, 10)] of ECMAScript: leading white space is skipped, one
    sign is read, then the longest run of decimal digits; [NaN] when no
    digit follows. *)
Definition parseInt10 (s : string) : Number :=
  let s := trim_start s in
  let (sign, s) :=
    match s with
    | String "-" r => ((-1)%Z, r)
    | String "+" r => (1%Z, r)
    | _ => (1%Z, s)
    end in
  match digits_prefix s None with
  | Some m => Num (sign * m)
  | None => NaN
  end.

(** [parseInt(v, 10)] for [v : string | null]; [null] reads as the text
    "null", which holds no digit. *)
Definition parseInt (v : option string) : Number :=
  match v with
  | Some s => parseInt10 s
  | None => NaN
  end.

(** [retryAfter?: number]: [None] is [undefined]. *)
Record RateLimitInfo : Type := {
  limit : Number;
  remaining : Number;
  reset : Number;
  retryAfter : option Number;
}.

(** [parseRateLimitHeaders]; [None] is the [null] result:
<<
  const limit = response.headers.get('X-RateLimit-Limit')
  const remaining = response.headers.get('X-RateLimit-Remaining')
  const reset = response.headers.get('X-RateLimit-Reset')
  const retryAfter = response.headers.get('Retry-After')
  if (limit && remaining && reset) {
    return { limit: parseInt(limit, 10), remaining: parseInt(remaining, 10),
             reset: parseInt(reset, 10),
             retryAfter: retryAfter ? parseInt(retryAfter, 10) : undefined }
  }
  return null
>> *)
Definition parseRateLimitHeaders (response : Response) : option RateLimitInfo :=
  let limit := headers_get "X-RateLimit-Limit" (headers response) in
  let remaining := headers_get "X-RateLimit-Remaining" (headers response) in
  let reset := headers_get "X-RateLimit-Reset" (headers response) in
  let retryAfter := headers_get "Retry-After" (headers response) in
  if truthy_string limit && truthy_string remaining && truthy_string reset
  then Some {| limit := parseInt limit;
               remaining := parseInt remaining;
               reset := parseInt reset;
               retryAfter := if truthy_string retryAfter
                             then Some (parseInt retryAfter) else None |}
  else None.

(** The responses of the specification's rate-limit scenario (section 8,
    item 8), and one whose limit header is present with an empty value. *)
Definition fullResponse : Response :=
  {| headers := [("X-RateLimit-Limit", "100"); ("X-RateLimit-Remaining", "99");
                 ("X-RateLimit-Reset", "1700000000")] |}.

Definition noRemainingResponse : Response :=
  {| headers := [("X-RateLimit-Limit", "100"); ("X-RateLimit-Reset", "1700000000")] |}.

Definition emptyLimitResponse : Response :=
  {| headers := [("X-RateLimit-Limit", ""); ("X-RateLimit-Remaining", "99");
                 ("X-RateLimit-Reset", "1700000000")] |}.

Definition retryResponse : Response :=
  {| headers := [("x-ratelimit-limit", "100"); ("x-ratelimit-remaining", "0");
                 ("x-ratelimit-reset", "1700000000"); ("retry-after", "30")] |}.

(** ** Target accounts in local storage (lib/accountService.ts, lines 48-103) *)

(** [TargetPersonaResponse] and [TargetAccount] of [types/api]: the fields
    the service reads ([id], [name], [personas]) and the remaining
    properties as they are. *)
Record TargetPersonaResponse : Type := {
  persona_id : string;
  persona_fields : obj;
}.

(** [personas?: TargetPersonaResponse[]]: [None] is an absent property. *)
Record TargetAccount : Type := {
  account_id : string;
  account_name : string;
  account_personas : option (list TargetPersonaResponse);
  account_fields : obj;
}.

(** A text held in local storage, told apart by what [JSON.parse] makes of
    it: the JSON text of a list of accounts (what [JSON.stringify] writes
    for that list), or a text [JSON.parse] rejects, the empty text
    included.  JSON texts of another shape, which this module never
    writes and whose type [TargetAccount[]] rules out, are left out. *)
Inductive StoredText : Type :=
| JsonAccounts (accounts : list TargetAccount)
| NotJson (text : string).

(** [localStorage]: key to text. *)
Abbreviation LocalStorage := (gmap string StoredText).

Inductive JsError : Type :=
| SyntaxError
| TypeError.

(** A call either returns or throws. *)
Inductive Outcome (A : Type) : Type :=
| Returned (a : A)
| Thrown (e : JsError).
Arguments Returned {A} a.
Arguments Thrown {A} e.

Definition bind {A B : Type} (m : Outcome A) (k : A → Outcome B) : Outcome B :=
  match m with
  | Returned a => k a
  | Thrown e => Thrown e
  end.
Notation "'let*' x := m 'in' k" := (bind m (λ x, k))
  (at level 10, x name, m at level 100, k at level 200).

Definition JSON_parse (t : StoredText) : Outcome (list TargetAccount) :=
  match t with
  | JsonAccounts accounts => Returned accounts
  | NotJson _ => Thrown SyntaxError
  end.

Definition JSON_stringify (accounts : list TargetAccount) : StoredText :=
  JsonAccounts accounts.

(** [!!stored] for a stored text: only the empty text is falsy. *)
Definition truthy_text (t : StoredText) : bool :=
  match t with
  | JsonAccounts _ => true
  | NotJson text => negb (String.eqb text "")
  end.

(** [Array.prototype.findIndex]: the index of the first element that
    satisfies [p], and [-1] when there is none. *)
Fixpoint findIndex {A : Type} (p : A → bool) (l : list A) : Z :=
  match l with
  | [] => -1
  | x :: l' =>
      if p x then 0
      else let i := findIndex p l' in if (i =? -1)%Z then -1 else (i + 1)%Z
  end.

Definition target_accounts_key : string := "target_accounts".

(** [getStoredTargetAccounts]:
<<
  const stored = localStorage.getItem('target_accounts');
  return stored ? JSON.parse(stored) : [];
>> *)
Definition getStoredTargetAccounts (ls : LocalStorage) : Outcome (list TargetAccount) :=
  let stored := ls !! target_accounts_key in
  match stored with
  | Some t => if truthy_text t then JSON_parse t else Returned []
  | None => Returned []
  end.

(** [saveTargetAccount]; the storage after the call is the result, and
    [setItem] is taken to succeed:
<<
  const accounts = getStoredTargetAccounts();
  const existingIndex = accounts.findIndex(p => p.id === account.id);
  if (existingIndex >= 0) { accounts[existingIndex] = account; }
  else { accounts.push(account); }
  localStorage.setItem('target_accounts', JSON.stringify(accounts));
>> *)
Definition saveTargetAccount (account : TargetAccount) (ls : LocalStorage)
  : Outcome LocalStorage :=
  let* accounts := getStoredTargetAccounts ls in
  let existingIndex :=
    findIndex (λ p, String.eqb (account_id p) (account_id account)) accounts in
  let accounts :=
    if (0 <=? existingIndex)%Z
    then <[Z.to_nat existingIndex := account]> accounts
    else accounts ++ [account] in
  Returned (<[target_accounts_key := JSON_stringify accounts]> ls).

(** [deleteTargetAccount]:
<<
  const accounts = getStoredTargetAccounts();
  const filtered = accounts.filter(p => p.id !== id);
  localStorage.setItem('target_accounts', JSON.stringify(filtered));
>> *)
Definition deleteTargetAccount (id : string) (ls : LocalStorage) : Outcome LocalStorage :=
  let* accounts := getStoredTargetAccounts ls in
  let filtered := filter (λ p, account_id p ≠ id) accounts in
  Returned (<[target_accounts_key := JSON_stringify filtered]> ls).

(** [getPersonasForTargetAccount]:
<<
  const accounts = getStoredTargetAccounts();
  const account = accounts.find(p => p.id === accountId);
  return account?.personas || [];
>> *)
Definition getPersonasForTargetAccount (accountId : string) (ls : LocalStorage)
  : Outcome (list TargetPersonaResponse) :=
  let* accounts := getStoredTargetAccounts ls in
  let account := List.find (λ p, String.eqb (account_id p) accountId) accounts in
  Returned (match account with
            | Some account => default [] (account_personas account)
            | None => []
            end).

(** [updatePersonaForTargetAccount]; reading a property of [undefined]
    throws a [TypeError]:
<<
  const accounts = getStoredTargetAccounts();
  const idx = accounts.findIndex(p => p.id === accountId);
  if (idx === -1) return;
  const account = accounts[idx];
  if (!account.personas) return;
  const personaIdx = account.personas.findIndex(p => p.id === persona.id);
  if (personaIdx === -1) return;
  account.personas[personaIdx] = persona;
  saveTargetAccount(account);
>> *)
Definition updatePersonaForTargetAccount (accountId : string)
    (persona : TargetPersonaResponse) (ls : LocalStorage) : Outcome LocalStorage :=
  let* accounts := getStoredTargetAccounts ls in
  let idx := findIndex (λ p, String.eqb (account_id p) accountId) accounts in
  if (idx =? -1)%Z then Returned ls else
  match accounts !! Z.to_nat idx with
  | None => Thrown TypeError
  | Some account =>
      match account_personas account with
      | None => Returned ls
      | Some personas =>
          let personaIdx :=
            findIndex (λ p, String.eqb (persona_id p) (persona_id persona)) personas in
          if (personaIdx =? -1)%Z then Returned ls else
          let account :=
            {| account_id := account_id account;
               account_name := account_name account;
               account_personas := Some (<[Z.to_nat personaIdx := persona]> personas);
               account_fields := account_fields account |} in
          saveTargetAccount account ls
      end
  end.

(** Sample storage states for the examples below. *)
Definition cfo : TargetPersonaResponse :=
  {| persona_id := "p1"; persona_fields := [("title", VStr "CFO")] |}.

Definition cto : TargetPersonaResponse :=
  {| persona_id := "p2"; persona_fields := [("title", VStr "CTO")] |}.

Definition acme : TargetAccount :=
  {| account_id := "a1"; account_name := "Acme";
     account_personas := Some [cfo]; account_fields := [] |}.

Definition globex : TargetAccount :=
  {| account_id := "a2"; account_name := "Globex";
     account_personas := None; account_fields := [] |}.

Definition acme_renamed : TargetAccount :=
  {| account_id := "a1"; account_name := "Acme Corp";
     account_personas := None; account_fields := [] |}.

Definition sampleStorage : LocalStorage :=
  {[ target_accounts_key := JsonAccounts [acme; globex] ]}.

Definition corruptStorage : LocalStorage :=
  {[ target_accounts_key := NotJson "[{" ]}.

(** ** Personas of a stored account (lib/accountService.ts, lines 83-133) *)

Definition with_personas (account : TargetAccount)
    (personas : list TargetPersonaResponse) : TargetAccount :=
  {| account_id := account_id account;
     account_name := account_name account;
     account_personas := Some personas;
     account_fields := account_fields account |}.

(** [addPersonaToTargetAccount]:
<<
  const accounts = getStoredTargetAccounts();
  const idx = accounts.findIndex(p => p.id === accountId);
  if (idx === -1) return;
  const account = accounts[idx];
  if (!account.personas) account.personas = [];
  account.personas.push(persona);
  saveTargetAccount(account);
>> *)
Definition addPersonaToTargetAccount (accountId : string)
    (persona : TargetPersonaResponse) (ls : LocalStorage) : Outcome LocalStorage :=
  let* accounts := getStoredTargetAccounts ls in
  let idx := findIndex (λ p, String.eqb (account_id p) accountId) accounts in
  if (idx =? -1)%Z then Returned ls else
  match accounts !! Z.to_nat idx with
  | None => Thrown TypeError
  | Some account =>
      let personas := default [] (account_personas account) in
      saveTargetAccount (with_personas account (personas ++ [persona])) ls
  end.

(** [deletePersonaFromTargetAccount]:
<<
  const accounts = getStoredTargetAccounts();
  const idx = accounts.findIndex(p => p.id === accountId);
  if (idx === -1) return;
  const account = accounts[idx];
  if (!account.personas) return;
  account.personas = account.personas.filter(p => p.id !== personaId);
  saveTargetAccount(account);
>> *)
Definition deletePersonaFromTargetAccount (accountId personaId : string)
    (ls : LocalStorage) : Outcome LocalStorage :=
  let* accounts := getStoredTargetAccounts ls in
  let idx := findIndex (λ p, String.eqb (account_id p) accountId) accounts in
  if (idx =? -1)%Z then Returned ls else
  match accounts !! Z.to_nat idx with
  | None => Thrown TypeError
  | Some account =>
      match account_personas account with
      | None => Returned ls
      | Some personas =>
          saveTargetAccount
            (with_personas account (filter (λ p, persona_id p ≠ personaId) personas)) ls
      end
  end.

(** An entry of the company-wide persona view. *)
Record PersonaEntry : Type := {
  entry_persona : TargetPersonaResponse;
  entry_accountId : string;
  entry_accountName : string;
}.

(** [getAllPersonas]:
<<
  const accounts = getStoredTargetAccounts();
  const allPersonas = [];
  accounts.forEach(account => {
    if (account.personas) {
      account.personas.forEach(persona => {
        allPersonas.push({ persona, accountId: account.id, accountName: account.name });
      });
    }
  });
  return allPersonas;
>> *)
Definition getAllPersonas (ls : LocalStorage) : Outcome (list PersonaEntry) :=
  let* accounts := getStoredTargetAccounts ls in
  Returned
    (fold_left
       (λ allPersonas account,
          match account_personas account with
          | Some personas =>
              fold_left
                (λ allPersonas persona,
                   allPersonas ++ [ {| entry_persona := persona;
                                       entry_accountId := account_id account;
                                       entry_accountName := account_name account |} ])
                personas allPersonas
          | None => allPersonas
          end)
       accounts []).

(** The entries [getAllPersonas] lists for one account. *)
Definition account_entries (account : TargetAccount) : list PersonaEntry :=
  (λ persona, {| entry_persona := persona;
                 entry_accountId := account_id account;
                 entry_accountName := account_name account |})
    <$> default [] (account_personas account).

(** ** Buying signals (lib/accountService.ts, lines 135-146) *)

(** [s.k] for an array element [s] that is neither a string nor [null] nor
    [undefined]: objects answer with their property, numbers, booleans
    and arrays have none of the names read here. *)
Definition prop (k : string) (s : value) : value :=
  match s with
  | VObj fs => obj_get k fs
  | _ => VUndefined
  end.

Definition is_undefined (v : value) : bool :=
  match v with
  | VUndefined => true
  | _ => false
  end.

(** The callback of [transformBuyingSignals]; reading a property of [null]
    or [undefined] throws:
<<
  typeof s === 'string'
    ? { id: String(idx), label: s, description: '', enabled: true }
    : { id: s.id || String(idx),
        label: s.label || s.name || '',
        description: s.description || '',
        enabled: s.enabled !== undefined ? s.enabled : true }
>> *)
Definition buyingSignal (s : value) (idx : nat) : Outcome obj :=
  match s with
  | VStr label =>
      Returned [("id", VStr (pretty idx)); ("label", VStr label);
                ("description", VStr ""); ("enabled", VBool true)]
  | VNull | VUndefined => Thrown TypeError
  | _ =>
      Returned [("id", js_or (prop "id" s) (VStr (pretty idx)));
                ("label", js_or (js_or (prop "label" s) (prop "name" s)) (VStr ""));
                ("description", js_or (prop "description" s) (VStr ""));
                ("enabled", if negb (is_undefined (prop "enabled" s))
                            then prop "enabled" s else VBool true)]
  end.

(** [xs.map(callback)] from index [idx] on; the first throw ends it. *)
Fixpoint map_buyingSignals (idx : nat) (xs : list value) : Outcome (list obj) :=
  match xs with
  | [] => Returned []
  | s :: xs' =>
      let* signal := buyingSignal s idx in
      let* signals := map_buyingSignals (S idx) xs' in
      Returned (signal :: signals)
  end.

(** [transformBuyingSignals]:
<<
  return (Array.isArray(raw) ? raw : []).map((s, idx) => ...);
>> *)
Definition transformBuyingSignals (raw : value) : Outcome (list obj) :=
  map_buyingSignals 0 (match raw with VArr xs => xs | _ => [] end).

(** What every signal [transformBuyingSignals] returns looks like: the
    four properties in this order, an id that is truthy, a label and a
    description that are truthy or the empty string, and an [enabled]
    that is not [undefined]. *)
Definition signal_shaped (signal : obj) : Prop :=
  ∃ id label description enabled,
    signal = [("id", id); ("label", label); ("description", description);
              ("enabled", enabled)]
    ∧ truthy id = true
    ∧ (truthy label = true ∨ label = VStr "")
    ∧ (truthy description = true ∨ description = VStr "")
    ∧ enabled ≠ VUndefined.

Definition is_nullish (v : value) : bool :=
  match v with
  | VNull | VUndefined => true
  | _ => false
  end.

Definition sampleSignals : value :=
  VArr [VStr "Hiring SDRs";
        VObj [("name", VStr "New CRO"); ("enabled", VBool false)];
        VNum 7].

(** ** The rest of [useAuthState] (the auth module, lines 258-339) *)

(** The calls a history of renders makes: one group of four for every
    render whose flag differs from the flag before it, the first render
    being compared with [previous]. *)
Fixpoint crossings (previous : AuthState) (states : list AuthState) : list Call :=
  match states with
  | [] => []
  | a :: rest =>
      (if bool_decide (isAuthenticated previous = isAuthenticated a)
       then [] else crossing_calls previous a) ++ crossings a rest
  end.

(** What the hook remembers is the flag of [previous], the state before
    the next render (before the first render, the initial state). *)
Definition remembers (h : HookState) (previous : AuthState) : Prop :=
  (effectDeps h = None ∨ effectDeps h = Some (isAuthenticated previous))
  ∧ isAuthenticated (prevAuthState h) = isAuthenticated previous.

(** The user object of the identity provider, as far as the hook reads
    it: [user.id], [user.primaryEmail], [user.displayName], and whether
    [user.getAuthJson] is a function. *)
Record StackUser : Type := {
  stack_id : string;
  primaryEmail : option string;
  displayName : option string;
  hasGetAuthJson : bool;
}.

(** [x || undefined] and [x || ''] for [x : string | null]. *)
Definition or_undefined (x : option string) : option string :=
  if truthy_string x then x else None.

Definition or_empty (x : option string) : string :=
  if truthy_string x then default "" x else "".

(** The auth state a render computes:
<<
  const authState = user ? {
    isAuthenticated: true,
    token,
    userInfo: { user_id: user.id, email: user.primaryEmail || '',
                name: user.displayName || undefined }
  } : { isAuthenticated: false, token: null, userInfo: null };
>> *)
Definition authStateOf (user : option StackUser) (token : option string) : AuthState :=
  match user with
  | Some user =>
      {| isAuthenticated := true;
         token := token;
         userInfo := Some {| user_id := stack_id user;
                             email := or_empty (primaryEmail user);
                             name := or_undefined (displayName user);
                             tier := None; rate_limit_exempt := None;
                             created_at := None; last_used := None |} |}
  | None => initialAuthState
  end.

(** The second effect of the hook and the module variable it writes:
<<
  useEffect(() => { updateGlobalAuthState(authState); },
            [authState.isAuthenticated, authState.token, authState.userInfo]);
>>
    [publishedDeps] is the auth state of the last run of the effect
    ([None] before the component is mounted). *)
Record Published : Type := {
  globalAuthState : AuthState;
  publishedDeps : option AuthState;
}.

Definition mountPublished : Published :=
  {| globalAuthState := initialAuthState; publishedDeps := None |}.

(** React compares dependencies with [Object.is]: booleans and strings by
    value, and [userInfo], an object made anew by every render, equal to
    the one before only when both are [null]. *)
Definition same_deps (d a : AuthState) : bool :=
  Bool.eqb (isAuthenticated d) (isAuthenticated a)
  && bool_decide (token d = token a)
  && match userInfo d, userInfo a with
     | None, None => true
     | _, _ => false
     end.

Definition publish (authState : AuthState) (g : Published) : Published :=
  match publishedDeps g with
  | Some d =>
      if same_deps d authState then g
      else {| globalAuthState := updateGlobalAuthState authState (globalAuthState g);
              publishedDeps := Some authState |}
  | None =>
      {| globalAuthState := updateGlobalAuthState authState (globalAuthState g);
         publishedDeps := Some authState |}
  end.

Definition publishes (states : list AuthState) (g : Published) : Published :=
  fold_left (λ acc authState, publish authState acc) states g.

(** The first effect of the hook, the token fetch, as the events it
    reacts to: the user object changes (the effect runs again and any
    fetch still in flight is disowned through [isMounted]), or the fetch
    in flight settles:
<<
  setLoading(true);
  if (user && typeof user.getAuthJson === 'function') {
    try { const { accessToken } = await user.getAuthJson();
          if (isMounted) setToken(accessToken || null); }
    catch { if (isMounted) setToken(null); }
  } else { if (isMounted) setToken(null); }
  if (isMounted) setLoading(false);
>> *)
Inductive FetchResult : Type :=
| Resolved (accessToken : option string)
| Rejected.

Inductive TokenEvent : Type :=
| UserChanged (user : option StackUser)
| FetchSettled (result : FetchResult).

Record TokenState : Type := {
  currentUser : option StackUser;
  tokenState : option string;
  loading : bool;
  fetching : bool;
}.

Definition mountToken : TokenState :=
  {| currentUser := None; tokenState := None; loading := true; fetching := false |}.

Definition can_fetch (user : option StackUser) : bool :=
  match user with
  | Some user => hasGetAuthJson user
  | None => false
  end.

Definition token_step (s : TokenState) (e : TokenEvent) : TokenState :=
  match e with
  | UserChanged user =>
      if can_fetch user
      then {| currentUser := user; tokenState := tokenState s;
              loading := true; fetching := true |}
      else {| currentUser := user; tokenState := None;
              loading := false; fetching := false |}
  | FetchSettled result =>
      if fetching s
      then {| currentUser := currentUser s;
              tokenState := match result with
                            | Resolved accessToken => or_undefined accessToken
                            | Rejected => None
                            end;
              loading := false; fetching := false |}
      else s
  end.

Definition token_run (events : list TokenEvent) : TokenState :=
  fold_left token_step events mountToken.

(** The module variable holds the state of the last run of the effect. *)
Definition published_inv (g : Published) : Prop :=
  ∀ d, publishedDeps g = Some d → globalAuthState g = d.

(** What holds of the token state at every moment. *)
Definition token_inv (s : TokenState) : Prop :=
  tokenState s ≠ Some ""
  ∧ (currentUser s = None → tokenState s = None)
  ∧ (fetching s = true → can_fetch (currentUser s) = true).

Definition ada : StackUser :=
  {| stack_id := "u1"; primaryEmail := Some "ada@example.com";
     displayName := None; hasGetAuthJson := true |}.

(** ** Firmographics and the criteria table
       (AccountDetail, lines 350-414 of lib/accountService.ts as given) *)

(** The names every object inherits from [Object.prototype]; [colorMap[key]]
    finds these although [colorMap] does not list them. *)
Definition object_prototype_names : list string :=
  ["constructor"; "__defineGetter__"; "__defineSetter__"; "hasOwnProperty";
   "__lookupGetter__"; "__lookupSetter__"; "isPrototypeOf";
   "propertyIsEnumerable"; "toString"; "valueOf"; "__proto__"; "toLocaleString"].

Definition colorMap : list (string * string) :=
  [("industry", "blue"); ("geography", "purple"); ("business_model", "orange");
   ("funding_stage", "red"); ("company_type", "gray"); ("keywords", "yellow");
   ("employees", "green"); ("department_size", "green"); ("revenue", "green")].

(** A colour of the table: a colour name, or the member of
    [Object.prototype] that [colorMap[key]] turned up. *)
Inductive Color : Type :=
| ColorName (name : string)
| InheritedMember (name : string).

Fixpoint assoc (k : string) (m : list (string * string)) : option string :=
  match m with
  | [] => None
  | (k', v) :: m' => if decide (k = k') then Some v else assoc k m'
  end.

(** [colorMap[key] || 'blue']. *)
Definition colorOf (key : string) : Color :=
  match assoc key colorMap with
  | Some name => ColorName name
  | None =>
      if bool_decide (key ∈ object_prototype_names)
      then InheritedMember key else ColorName "blue"
  end.

Record CriterionValue : Type := {
  val_text : value;
  val_color : Color;
}.

(** A row of the criteria table: [{ label, values, id }]. *)
Record Criterion : Type := {
  crit_label : string;
  crit_values : list CriterionValue;
  crit_id : option string;
}.

(** [\w] of a regular expression: letters, digits and the underscore. *)
Definition is_word (c : ascii) : bool :=
  let n := nat_of_ascii c in
  ((97 <=? n)%nat && (n <=? 122)%nat) || ((65 <=? n)%nat && (n <=? 90)%nat)
  || ((48 <=? n)%nat && (n <=? 57)%nat) || (n =? 95)%nat.

(** [key.replace(/_/g, ' ')]. *)
Fixpoint underscores_to_spaces (s : string) : string :=
  match s with
  | EmptyString => EmptyString
  | String c s' =>
      String (if Ascii.eqb c "_" then " "%char else c) (underscores_to_spaces s')
  end.

(** [.replace(/\b\w/g, l => l.toUpperCase())]: a word character is
    capitalised when no word character stands before it. *)
Fixpoint capitalize_words (after_word : bool) (s : string) : string :=
  match s with
  | EmptyString => EmptyString
  | String c s' =>
      String (if is_word c && negb after_word then to_upper c else c)
             (capitalize_words (is_word c) s')
  end.

(** The label of a firmographics key, snake_case to Title Case. *)
Definition labelOf (key : string) : string :=
  capitalize_words false (underscores_to_spaces key).

(** [\s] on ASCII text: tab, line feed, vertical tab, form feed, carriage
    return and space. *)
Definition is_space (c : ascii) : bool :=
  let n := nat_of_ascii c in ((9 <=? n)%nat && (n <=? 13)%nat) || (n =? 32)%nat.

(** [.replace(/\s+/g, '_')]: every run of white space becomes one
    underscore. *)
Fixpoint spaces_to_underscore (in_run : bool) (s : string) : string :=
  match s with
  | EmptyString => EmptyString
  | String c s' =>
      if is_space c
      then (if in_run then spaces_to_underscore true s'
            else String "_" (spaces_to_underscore true s'))
      else String c (spaces_to_underscore false s')
  end.

(** The key of a label, [row.label.toLowerCase().replace(/\s+/g, '_')];
    labels are taken to be ASCII text, on which [toLowerCase] and [\s] act
    as [lower] and [is_space]. *)
Definition fieldKeyOf (label : string) : string :=
  spaces_to_underscore false (lower label).

(** [safeMapArray]:
<<
  if (Array.isArray(value)) return value.map(item => ({ text: item, color }));
  else if (value && typeof value === 'string') return [{ text: value, color }];
  return [];
>> *)
Definition safeMapArray (v : value) (color : Color) : list CriterionValue :=
  match v with
  | VArr items => map (λ item, {| val_text := item; val_color := color |}) items
  | VStr s => if truthy v then [ {| val_text := v; val_color := color |} ] else []
  | _ => []
  end.

Definition is_array_or_string (v : value) : bool :=
  match v with
  | VArr _ | VStr _ => true
  | _ => false
  end.

(** [transformFirmographicsToCriteria]:
<<
  if (!firmographics) return [];
  const criteria = [];
  Object.entries(firmographics).forEach(([key, value]) => {
    if (value && (Array.isArray(value) || typeof value === 'string')) {
      const label = key.replace(/_/g, ' ').replace(/\b\w/g, l => l.toUpperCase());
      const color = colorMap[key] || 'blue';
      const values = safeMapArray(value, color);
      if (values.length > 0) criteria.push({ label, values });
    }
  });
  return criteria.map((item, index) => ({ ...item, id: String(index) }));
>> *)
Definition transformFirmographicsToCriteria (firmographics : value) : list Criterion :=
  if negb (truthy firmographics) then [] else
  let criteria :=
    fold_left
      (λ criteria kv,
         if truthy kv.2 && is_array_or_string kv.2 then
           let label := labelOf kv.1 in
           let color := colorOf kv.1 in
           let values := safeMapArray kv.2 color in
           if (0 <? length values)%nat
           then criteria ++ [ {| crit_label := label; crit_values := values;
                                 crit_id := None |} ]
           else criteria
         else criteria)
      (spread_entries firmographics) [] in
  imap (λ index item, {| crit_label := crit_label item;
                         crit_values := crit_values item;
                         crit_id := Some (pretty index) |}) criteria.

(** [result[fieldKey] = v] on a plain object: assigning to [__proto__]
    goes to the prototype setter and makes no own property. *)
Definition assign (k : string) (v : value) (result : obj) : obj :=
  if decide (k = "__proto__") then result else obj_set k v result.

(** [transformCriteriaToFirmographics]:
<<
  const result = {};
  rows.forEach(row => {
    const values = row.values.map(v => v.text);
    const fieldKey = row.label.toLowerCase().replace(/\s+/g, '_');
    if (values.length === 1) result[fieldKey] = values[0];
    else if (values.length > 1) result[fieldKey] = values;
  });
  return result;
>> *)
Definition transformCriteriaToFirmographics (rows : list Criterion) : obj :=
  fold_left
    (λ result row,
       let values := map val_text (crit_values row) in
       let fieldKey := fieldKeyOf (crit_label row) in
       match values with
       | [] => result
       | [v] => assign fieldKey v result
       | _ => assign fieldKey (VArr values) result
       end)
    rows [].

(** A key the round trip through a label gives back: lower-case letters,
    digits and underscores, no two underscores in a row. *)
Definition key_char (c : ascii) : bool :=
  is_lower c
  || (let n := nat_of_ascii c in (48 <=? n)%nat && (n <=? 57)%nat)
  || Ascii.eqb c "_".

Fixpoint normal_key (s : string) : bool :=
  match s with
  | EmptyString => true
  | String c s' =>
      key_char c
      && negb (Ascii.eqb c "_"
               && match s' with String d _ => Ascii.eqb d "_" | EmptyString => false end)
      && normal_key s'
  end.

(** What is left of a firmographics value after the table and back:
    a non-empty string and an array of two or more stay, an array of one
    element becomes that element, everything else is dropped. *)
Definition survives (v : value) : option value :=
  match v with
  | VStr s => if truthy v then Some v else None
  | VArr [] => None
  | VArr [item] => Some item
  | VArr _ => Some v
  | _ => None
  end.

(** The row [transformFirmographicsToCriteria] makes of one entry, before
    the ids are given; [None] when the entry is skipped. *)
Definition criterionOf (kv : string * value) : option Criterion :=
  if truthy kv.2 && is_array_or_string kv.2
     && (0 <? length (safeMapArray kv.2 (colorOf kv.1)))%nat
  then Some {| crit_label := labelOf kv.1;
               crit_values := safeMapArray kv.2 (colorOf kv.1);
               crit_id := None |}
  else None.

(** The step of [transformCriteriaToFirmographics] on one row. *)
Definition criteria_step (result : obj) (row : Criterion) : obj :=
  let values := map val_text (crit_values row) in
  let fieldKey := fieldKeyOf (crit_label row) in
  match values with
  | [] => result
  | [v] => assign fieldKey v result
  | _ => assign fieldKey (VArr values) result
  end.

(** The entries of a firmographics mapping that come back from the table. *)
Definition round_trip_entries (fs : obj) : obj :=
  omap (λ kv, (λ v, (kv.1, v)) <$> survives kv.2) fs.

Definition sampleFirmographics : obj :=
  [("industry", VArr [VStr "SaaS"; VStr "Fintech"]);
   ("funding_stage", VStr "Series A");
   ("keywords", VArr [VStr "api"]);
   ("employees", VNum 200);
   ("geography", VArr [])].

(** * Properties *)

(** ** Objects: lookup, assignment and spread *)

Section obj_facts.
Implicit Types (o es : obj) (k : string) (v : value).

Lemma obj_lookup_set k k' v o :
  obj_lookup k (obj_set k' v o) =
  if decide (k = k') then Some v else obj_lookup k o.
Proof.
  induction o as [|[k0 v0] o IH]; simpl.
  - repeat case_decide; congruence.
  - destruct (decide (k' = k0)) as [->|Hne]; simpl.
    + repeat case_decide; congruence.
    + rewrite IH. repeat case_decide; congruence.
Qed.

Lemma obj_lookup_None k o : obj_lookup k o = None ↔ k ∉ keys o.
Proof.
  unfold keys. induction o as [|[k0 v0] o IH]; simpl.
  - split; [intros _; apply not_elem_of_nil | done].
  - rewrite not_elem_of_cons. case_decide; [|tauto].
    split; [done | intros [? _]; done].
Qed.

Lemma obj_lookup_is_Some k o : is_Some (obj_lookup k o) ↔ k ∈ keys o.
Proof.
  rewrite <-not_eq_None_Some, obj_lookup_None.
  split; [apply dec_stable | auto].
Qed.

Lemma keys_set_in k v o : k ∈ keys o → keys (obj_set k v o) = keys o.
Proof.
  unfold keys. induction o as [|[k0 v0] o IH]; simpl.
  - intros H. by apply elem_of_nil in H.
  - intros H. case_decide; simpl; [by subst|].
    f_equal. apply IH. apply elem_of_cons in H as [?|?]; done.
Qed.

Lemma keys_set_notin k v o : k ∉ keys o → keys (obj_set k v o) = keys o ++ [k].
Proof.
  unfold keys. induction o as [|[k0 v0] o IH]; simpl; [done|].
  rewrite not_elem_of_cons. intros [Hne Hnin].
  case_decide; [done|]. simpl. f_equal. by apply IH.
Qed.

Lemma elem_of_keys_set k k' v o :
  k ∈ keys (obj_set k' v o) ↔ k = k' ∨ k ∈ keys o.
Proof.
  rewrite <-!obj_lookup_is_Some, obj_lookup_set.
  case_decide; [subst; split; eauto | ].
  split; [auto | intros [?|?]; done].
Qed.

Lemma NoDup_keys_set k v o : NoDup (keys o) → NoDup (keys (obj_set k v o)).
Proof.
  intros Hnd. destruct (decide (k ∈ keys o)) as [Hin|Hnin].
  - by rewrite keys_set_in.
  - rewrite keys_set_notin by done.
    apply NoDup_app. split_and!; [done | | apply NoDup_singleton].
    intros x Hx Hx'. apply list_elem_of_singleton in Hx'. by subst.
Qed.

(** Two objects with the same property names, in the same order, and the
    same value under every name are the same object. *)
Lemma obj_ext o1 o2 :
  NoDup (keys o1) →
  keys o1 = keys o2 →
  (∀ k, obj_lookup k o1 = obj_lookup k o2) →
  o1 = o2.
Proof.
  revert o2. induction o1 as [|[k1 v1] o1 IH]; intros [|[k2 v2] o2]; try done.
  intros Hnd Hkeys Hlook.
  change (k1 :: keys o1 = k2 :: keys o2) in Hkeys.
  change (NoDup (k1 :: keys o1)) in Hnd.
  injection Hkeys as -> Hkeys.
  apply NoDup_cons in Hnd as [Hnin Hnd].
  pose proof (Hlook k2) as Hk. simpl in Hk.
  rewrite !decide_True in Hk by done. injection Hk as ->.
  f_equal. apply IH; [done | done |].
  intros k. specialize (Hlook k). simpl in Hlook.
  case_decide as Heq; [|done]. subst k.
  transitivity (@None value); [|symmetry].
  - by apply obj_lookup_None.
  - apply obj_lookup_None. by rewrite <-Hkeys.
Qed.

Lemma spread_app o es1 es2 : spread o (es1 ++ es2) = spread (spread o es1) es2.
Proof. apply fold_left_app. Qed.

(** In a spread the last entry for a name wins, and names the entries do
    not mention keep the value they had. *)
Lemma obj_lookup_spread k o es :
  obj_lookup k (spread o es) =
  match obj_lookup k (reverse es) with
  | Some v => Some v
  | None => obj_lookup k o
  end.
Proof.
  revert o. induction es as [|[k0 v0] es IH] using rev_ind; intros o; [done|].
  rewrite spread_app, reverse_snoc. simpl.
  rewrite obj_lookup_set. case_decide; [done | apply IH].
Qed.

Lemma keys_cons k v o : keys ((k, v) :: o) = k :: keys o.
Proof. done. Qed.

Lemma elem_of_keys_spread k o es :
  k ∈ keys (spread o es) ↔ k ∈ keys o ∨ k ∈ keys es.
Proof.
  revert o. induction es as [|[k0 v0] es IH]; intros o.
  - change (keys []) with (@nil string). rewrite elem_of_nil. simpl. tauto.
  - change (spread o ((k0, v0) :: es)) with (spread (obj_set k0 v0 o) es).
    rewrite IH, elem_of_keys_set, keys_cons, elem_of_cons. tauto.
Qed.

Lemma NoDup_keys_spread o es : NoDup (keys o) → NoDup (keys (spread o es)).
Proof.
  revert o. induction es as [|[k0 v0] es IH]; intros o Hnd; [done|].
  apply IH. by apply NoDup_keys_set.
Qed.

Lemma keys_spread_absorb o es :
  (∀ k, k ∈ keys es → k ∈ keys o) → keys (spread o es) = keys o.
Proof.
  revert o. induction es as [|[k0 v0] es IH]; intros o Hsub; [done|].
  change (spread o ((k0, v0) :: es)) with (spread (obj_set k0 v0 o) es).
  assert (k0 ∈ keys o) as Hin by (apply Hsub; rewrite keys_cons; apply elem_of_cons; auto).
  rewrite IH.
  - by apply keys_set_in.
  - intros k Hk. apply elem_of_keys_set. right. apply Hsub.
    rewrite keys_cons. apply elem_of_cons; auto.
Qed.

(** Assigning the same entries a second time changes nothing. *)
Lemma spread_twice o es :
  NoDup (keys o) → spread (spread o es) es = spread o es.
Proof.
  intros Hnd. symmetry. apply obj_ext.
  - by apply NoDup_keys_spread.
  - symmetry. apply keys_spread_absorb.
    intros k Hk. apply elem_of_keys_spread. by right.
  - intros k. rewrite (obj_lookup_spread k (spread o es)).
    rewrite obj_lookup_spread. by destruct (obj_lookup k (reverse es)).
Qed.

(** Spreading an object into the empty literal copies it. *)
Lemma obj_set_fresh k v o : k ∉ keys o → obj_set k v o = o ++ [(k, v)].
Proof.
  induction o as [|[k1 v1] o IH]; [done|].
  rewrite keys_cons, not_elem_of_cons. intros [? ?]. simpl.
  case_decide; [done|]. f_equal. by apply IH.
Qed.

Lemma spread_fresh o es : NoDup (keys (o ++ es)) → spread o es = o ++ es.
Proof.
  revert o. induction es as [|[k0 v0] es IH]; intros o Hnd.
  - by rewrite app_nil_r.
  - change (spread o ((k0, v0) :: es)) with (spread (obj_set k0 v0 o) es).
    rewrite obj_set_fresh.
    + rewrite IH; by rewrite <-app_assoc.
    + unfold keys in Hnd. rewrite fmap_app in Hnd.
      apply NoDup_app in Hnd as (_ & Hdisj & _).
      intros Hin. apply (Hdisj _ Hin). apply elem_of_cons; auto.
Qed.

Lemma spread_nil_copy o : NoDup (keys o) → spread [] o = o.
Proof. intros Hnd. by apply (spread_fresh []). Qed.
End obj_facts.

(** ** The Key Normalizer is idempotent *)

Lemma string_pair_ind (P : string → Prop) :
  P EmptyString →
  (∀ c, P (String c EmptyString)) →
  (∀ c d r, P r → P (String d r) → P (String c (String d r))) →
  ∀ s, P s.
Proof.
  intros H0 H1 H2 s.
  enough (P s ∧ ∀ c, P (String c s)) as [? _] by done.
  induction s as [|d r [IHr IHdr]]; split; auto.
Qed.

Lemma is_lower_to_upper c : is_lower c = true → is_lower (to_upper c) = false.
Proof. destruct c as [[] [] [] [] [] [] [] []]; vm_compute; congruence. Qed.

Lemma to_upper_not_underscore c :
  is_lower c = true → Ascii.eqb (to_upper c) "_" = false.
Proof. destruct c as [[] [] [] [] [] [] [] []]; vm_compute; congruence. Qed.

(** The first character of a rewritten key is lower-case only if the key
    itself started with that lower-case character. *)
Lemma snakeToCamel_head d r :
  ∃ h t, snakeToCamel (String d r) = String h t ∧
         (is_lower h = true → is_lower d = true).
Proof.
  destruct r as [|e r]; simpl; [eauto|].
  destruct (Ascii.eqb d "_" && is_lower e) eqn:Htest; [|eauto].
  apply andb_true_iff in Htest as [_ He].
  eexists _, _. split; [done|].
  rewrite is_lower_to_upper by done. done.
Qed.

Lemma snakeToCamel_cons2 c d r :
  snakeToCamel (String c (String d r)) =
  if Ascii.eqb c "_" && is_lower d
  then String (to_upper d) (snakeToCamel r)
  else String c (snakeToCamel (String d r)).
Proof. done. Qed.

Lemma snakeToCamel_idem s : snakeToCamel (snakeToCamel s) = snakeToCamel s.
Proof.
  induction s as [|c|c d r IHr IHdr] using string_pair_ind; [done..|].
  rewrite snakeToCamel_cons2.
  destruct (Ascii.eqb c "_" && is_lower d) eqn:Htest.
  - apply andb_true_iff in Htest as [_ Hd].
    destruct (snakeToCamel r) as [|e t] eqn:Hr; [done|].
    rewrite snakeToCamel_cons2, to_upper_not_underscore by done.
    simpl andb. cbv iota. by rewrite IHr.
  - destruct (snakeToCamel_head d r) as (h & t & Hdr & Hh).
    rewrite Hdr in *. rewrite snakeToCamel_cons2.
    assert (Ascii.eqb c "_" && is_lower h = false) as ->.
    { apply andb_false_iff. apply andb_false_iff in Htest as [?|Hd]; [by left|right].
      destruct (is_lower h); [|done]. by rewrite Hh in Hd. }
    by rewrite IHdr.
Qed.

Section key_normalizer.
Lemma Forall_obj_set (Q : string * value → Prop) k v o :
  Forall Q o → Q (k, v) → Forall Q (obj_set k v o).
Proof.
  intros Ho Hkv. induction Ho as [|[k0 v0] o H0 Ho IH]; simpl.
  - by constructor.
  - case_decide; constructor; auto.
Qed.

Lemma fold_step_NoDup fs acc :
  NoDup (keys acc) → NoDup (keys (fold_left camel_step fs acc)).
Proof.
  revert acc. induction fs as [|kv fs IH]; intros acc Hnd; [done|].
  simpl. apply IH. by apply NoDup_keys_set.
Qed.

Lemma fold_step_settled fs acc :
  Forall (λ kv, transformKeysToCamelCase (transformKeysToCamelCase kv.2)
                = transformKeysToCamelCase kv.2) fs →
  settled acc → settled (fold_left camel_step fs acc).
Proof.
  intros Hfs. revert acc. induction Hfs as [|kv fs Hkv Hfs IH]; intros acc Hacc; [done|].
  simpl. apply IH. apply Forall_obj_set; [done|].
  split; [apply snakeToCamel_idem | done].
Qed.

Lemma fold_step_spread fs acc :
  settled fs → fold_left camel_step fs acc = spread acc fs.
Proof.
  intros Hfs. revert acc. induction Hfs as [|kv fs [Hk Hv] Hfs IH]; intros acc; [done|].
  simpl. rewrite IH. unfold camel_step. by rewrite Hk, Hv.
Qed.

Lemma transformKeysToCamelCase_idem v :
  transformKeysToCamelCase (transformKeysToCamelCase v) = transformKeysToCamelCase v.
Proof.
  induction v as [| | | | |xs IH|fs IH] using value_rect_nested; try done.
  - simpl. f_equal. rewrite <-list_fmap_compose.
    apply Forall_fmap_ext_1. by apply (Forall_impl _ _ _ IH).
  - simpl. f_equal. fold camel_step.
    rewrite fold_step_spread.
    + apply spread_nil_copy. apply fold_step_NoDup. constructor.
    + apply fold_step_settled; [done | constructor].
Qed.

Lemma NoDup_keys_spread_camel fs :
  NoDup (keys (fold_left
                 (λ acc kv, obj_set (snakeToCamel kv.1) (transformKeysToCamelCase kv.2) acc)
                 fs [])).
Proof. apply fold_step_NoDup. constructor. Qed.

Lemma transformKeysToCamelCase_truthy v :
  truthy (transformKeysToCamelCase v) = truthy v.
Proof. by destruct v. Qed.
End key_normalizer.

(** ** Response Normalizers *)

Section normalizers.
Implicit Types (x : obj).

Lemma normalized_data_truthy x : truthy (normalized_data x) = true.
Proof.
  unfold normalized_data, js_or. rewrite transformKeysToCamelCase_truthy.
  by destruct (truthy (obj_get "data" x)) eqn:?.
Qed.

Lemma normalized_data_again x :
  transformKeysToCamelCase (js_or (normalized_data x) (VObj [])) = normalized_data x.
Proof.
  unfold js_or at 1. rewrite normalized_data_truthy.
  apply transformKeysToCamelCase_idem.
Qed.

(** Both normalizers are one object literal: the entity, then the entries
    of the normalized data, then the re-asserted fields. *)
Lemma normalizePersonaResponse_literal x :
  normalizePersonaResponse x =
  spread (spread [] x)
    (spread_entries (normalized_data x) ++ [("data", normalized_data x)]).
Proof. by rewrite spread_app. Qed.

Lemma normalizeCampaignResponse_literal x :
  normalizeCampaignResponse x =
  spread (spread [] x)
    (spread_entries (normalized_data x)
       ++ [("data", normalized_data x); ("type", obj_get "type" x)]).
Proof. by rewrite spread_app. Qed.

Lemma NoDup_spread_nil x : NoDup (keys (spread [] x)).
Proof. apply NoDup_keys_spread. constructor. Qed.

Lemma normalizePersonaResponse_NoDup x : NoDup (keys (normalizePersonaResponse x)).
Proof. apply NoDup_keys_set, NoDup_keys_spread, NoDup_spread_nil. Qed.

Lemma normalizeCampaignResponse_NoDup x : NoDup (keys (normalizeCampaignResponse x)).
Proof. apply NoDup_keys_set, NoDup_keys_set, NoDup_keys_spread, NoDup_spread_nil. Qed.

Lemma obj_get_set k k' v x :
  obj_get k (obj_set k' v x) = if decide (k = k') then v else obj_get k x.
Proof. unfold obj_get. rewrite obj_lookup_set. by case_decide. Qed.

Lemma normalizePersonaResponse_data x :
  obj_get "data" (normalizePersonaResponse x) = normalized_data x.
Proof. unfold normalizePersonaResponse. by rewrite obj_get_set. Qed.

Lemma normalizeCampaignResponse_data x :
  obj_get "data" (normalizeCampaignResponse x) = normalized_data x.
Proof. unfold normalizeCampaignResponse. by rewrite !obj_get_set. Qed.

Lemma normalizeCampaignResponse_type x :
  obj_get "type" (normalizeCampaignResponse x) = obj_get "type" x.
Proof. unfold normalizeCampaignResponse. by rewrite obj_get_set. Qed.
End normalizers.

(** C1. Entity response normalization is idempotent: for every entity [x],
    normalizing the normalized entity gives the normalized entity again,
    for the persona normalizer and for the campaign normalizer. *)
Theorem normalize_idempotent (x : obj) :
  normalizePersonaResponse (normalizePersonaResponse x) = normalizePersonaResponse x
  ∧ normalizeCampaignResponse (normalizeCampaignResponse x) = normalizeCampaignResponse x.
Proof.
  split.
  - rewrite (normalizePersonaResponse_literal (normalizePersonaResponse x)).
    unfold normalized_data. rewrite normalizePersonaResponse_data, normalized_data_again.
    rewrite spread_nil_copy by apply normalizePersonaResponse_NoDup.
    rewrite (normalizePersonaResponse_literal x).
    apply spread_twice, NoDup_spread_nil.
  - rewrite (normalizeCampaignResponse_literal (normalizeCampaignResponse x)).
    unfold normalized_data.
    rewrite normalizeCampaignResponse_data, normalizeCampaignResponse_type, normalized_data_again.
    rewrite spread_nil_copy by apply normalizeCampaignResponse_NoDup.
    rewrite (normalizeCampaignResponse_literal x).
    apply spread_twice, NoDup_spread_nil.
Qed.

Section protected_fields.
Implicit Types (x es : obj) (k : string).

Lemma obj_lookup_app k es1 es2 :
  obj_lookup k (es1 ++ es2) =
  match obj_lookup k es1 with
  | Some v => Some v
  | None => obj_lookup k es2
  end.
Proof.
  induction es1 as [|[k0 v0] es1 IH]; simpl; [done|]. by case_decide.
Qed.

Lemma keys_reverse es : keys (reverse es) = reverse (keys es).
Proof. unfold keys. by rewrite fmap_reverse. Qed.

(** With distinct names it does not matter from which end a property
    list is searched. *)
Lemma obj_lookup_reverse k es :
  NoDup (keys es) → obj_lookup k (reverse es) = obj_lookup k es.
Proof.
  induction es as [|[k0 v0] es IH]; [done|].
  rewrite keys_cons, NoDup_cons. intros [Hnin Hnd].
  rewrite reverse_cons, obj_lookup_app, IH by done. simpl.
  case_decide as Heq; [|by destruct (obj_lookup k es)].
  subst k0. by apply obj_lookup_None in Hnin as ->.
Qed.

(** A normalized data mapping has pairwise distinct property names. *)
Lemma normalized_data_NoDup x fs :
  normalized_data x = VObj fs → NoDup (keys fs).
Proof.
  unfold normalized_data.
  destruct (js_or (obj_get "data" x) (VObj [])) as [| | | | | |fs0]; try done.
  simpl. intros [= <-]. apply NoDup_keys_spread_camel.
Qed.

(** What a field that is not re-asserted holds after normalization: the
    value the data entries give it, and the entity's own value when the
    data entries do not mention it. *)
Lemma normalize_unprotected k x :
  NoDup (keys x) → k ≠ "data" →
  obj_lookup k (normalizePersonaResponse x) =
  match obj_lookup k (reverse (spread_entries (normalized_data x))) with
  | Some v => Some v
  | None => obj_lookup k x
  end.
Proof.
  intros Hnd Hk. unfold normalizePersonaResponse. fold (normalized_data x).
  rewrite obj_lookup_set, decide_False by done.
  by rewrite obj_lookup_spread, spread_nil_copy.
Qed.

Lemma normalizeCampaignResponse_persona x :
  normalizeCampaignResponse x =
  obj_set "type" (obj_get "type" x) (normalizePersonaResponse x).
Proof. done. Qed.
End protected_fields.

(** C3 (as the code has it). For every raw entity with pairwise distinct
    property names: the campaign normalizer re-asserts [type], so the
    output's top-level type is the input's top-level type whatever the data
    mapping holds; both normalizers re-assert [data], the key-normalized
    data mapping.  [id] is not re-asserted: the output's top-level id is
    the input's top-level id when the key-normalized data has no [id] key,
    and the value of the data's [id] key when it has one. *)
Theorem normalize_reasserted_fields (x : obj) :
  NoDup (keys x) →
  obj_get "type" (normalizeCampaignResponse x) = obj_get "type" x
  ∧ obj_get "data" (normalizePersonaResponse x) = normalized_data x
  ∧ obj_get "data" (normalizeCampaignResponse x) = normalized_data x
  ∧ ("id" ∉ keys (spread_entries (normalized_data x)) →
       obj_get "id" (normalizePersonaResponse x) = obj_get "id" x
       ∧ obj_get "id" (normalizeCampaignResponse x) = obj_get "id" x)
  ∧ (∀ fs v, normalized_data x = VObj fs → obj_lookup "id" fs = Some v →
       obj_get "id" (normalizePersonaResponse x) = v
       ∧ obj_get "id" (normalizeCampaignResponse x) = v).
Proof.
  intros Hnd.
  assert (obj_get "id" (normalizeCampaignResponse x)
          = obj_get "id" (normalizePersonaResponse x)) as Hcamp.
  { rewrite normalizeCampaignResponse_persona, obj_get_set. by rewrite decide_False. }
  assert ("id" ≠ "data") as Hne by discriminate.
  pose proof (normalize_unprotected "id" x Hnd Hne) as Hid.
  split_and!.
  - apply normalizeCampaignResponse_type.
  - apply normalizePersonaResponse_data.
  - apply normalizeCampaignResponse_data.
  - intros Hnin. rewrite Hcamp.
    enough (obj_get "id" (normalizePersonaResponse x) = obj_get "id" x) by done.
    unfold obj_get. rewrite Hid.
    assert (obj_lookup "id" (reverse (spread_entries (normalized_data x))) = None) as ->; [|done].
    apply obj_lookup_None. rewrite keys_reverse. by rewrite elem_of_reverse.
  - intros fs v Hfs Hv. rewrite Hcamp.
    enough (obj_get "id" (normalizePersonaResponse x) = v) by done.
    unfold obj_get. rewrite Hid, Hfs. simpl spread_entries.
    rewrite obj_lookup_reverse by (by eapply normalized_data_NoDup).
    by rewrite Hv.
Qed.

Lemma normalize_reasserted_fields_witness :
  NoDup (keys colliding_raw)
  ∧ obj_get "type" (normalizeCampaignResponse colliding_raw) = VStr "email"
  ∧ obj_get "id" (normalizePersonaResponse colliding_raw) = VStr "2"
  ∧ obj_get "id" (normalizeCampaignResponse scenario_raw) = VStr "1".
Proof.
  assert (NoDup (keys colliding_raw)) as Hc
    by (apply (bool_decide_unpack _); vm_compute; exact I).
  assert (NoDup (keys scenario_raw)) as Hs
    by (apply (bool_decide_unpack _); vm_compute; exact I).
  destruct (normalize_reasserted_fields colliding_raw Hc) as (Ht & _ & _ & _ & Hid).
  destruct (normalize_reasserted_fields scenario_raw Hs) as (_ & _ & _ & Hkeep & _).
  split_and!.
  - exact Hc.
  - exact Ht.
  - exact (proj1 (Hid _ (VStr "2") eq_refl eq_refl)).
  - apply Hkeep. apply (bool_decide_unpack _). vm_compute. exact I.
Defined.

(** C3 as stated fails: nested data that carries an [id] key overrides the
    top-level id, in the persona and in the campaign normalizer. *)
Lemma normalize_id_overridden :
  obj_get "id" (normalizePersonaResponse colliding_raw) ≠ obj_get "id" colliding_raw
  ∧ obj_get "id" (normalizeCampaignResponse colliding_raw) ≠ obj_get "id" colliding_raw.
Proof. split; vm_compute; discriminate. Qed.

(** C4. The round-trip scenario: the campaign normalizer sends
    [{id:"1", type:"email", data:{target_persona_name:"VP Sales"}}] to
    [{id:"1", type:"email", data:{targetPersonaName:"VP Sales"},
      targetPersonaName:"VP Sales"}]. *)
Theorem normalizeCampaignResponse_scenario :
  normalizeCampaignResponse scenario_raw = scenario_normalized.
Proof. vm_compute. reflexivity. Qed.

(** ** Endpoint routing *)

Lemma truthy_string_spec (s : option string) :
  truthy_string s = true ↔ ∃ t, s = Some t ∧ t ≠ "".
Proof.
  destruct s as [t|]; simpl.
  - rewrite negb_true_iff, String.eqb_neq. split.
    + intros Hne. by exists t.
    + by intros (t' & [= <-] & Hne).
  - split; [done | by intros (t & ? & _)].
Qed.

(** C10. [getApiBasePath] returns ['/api'] if and only if the global auth
    state is authenticated and its token is a non-null, non-empty string;
    in every other case, an authenticated state with a null or empty token
    included, it returns ['/demo']. *)
Theorem getApiBasePath_credential (g : AuthState) :
  (getApiBasePath g = "/api" ↔
     isAuthenticated g = true ∧ ∃ t, token g = Some t ∧ t ≠ "")
  ∧ (¬ (isAuthenticated g = true ∧ ∃ t, token g = Some t ∧ t ≠ "") →
     getApiBasePath g = "/demo")
  ∧ (token g = None ∨ token g = Some "" → getApiBasePath g = "/demo").
Proof.
  assert (shouldUseAuthenticatedEndpoints g = true ↔
          isAuthenticated g = true ∧ ∃ t, token g = Some t ∧ t ≠ "") as Hshould.
  { unfold shouldUseAuthenticatedEndpoints, getAuthState.
    by rewrite andb_true_iff, truthy_string_spec. }
  unfold getApiBasePath.
  destruct (shouldUseAuthenticatedEndpoints g); destruct Hshould as [Hto Hfrom].
  - specialize (Hto eq_refl). split_and!; [done | done |].
    destruct Hto as (_ & t & Ht & Hne). intros [Hnone | Hempty]; congruence.
  - split_and!; [|done..].
    split; [discriminate | intros Hcred; by specialize (Hfrom Hcred)].
Qed.

(** ** The auth-change effect *)

Section auth_effect.
Implicit Types (a previous current : AuthState) (w : World) (h : HookState).

Lemma guard_is_flag_change previous current :
  negb (Bool.eqb (negb (isAuthenticated previous)) (negb (isAuthenticated current)))
  = negb (Bool.eqb (isAuthenticated previous) (isAuthenticated current)).
Proof. by destruct (isAuthenticated previous), (isAuthenticated current). Qed.

Lemma authChangeEffect_crossing previous current w :
  isAuthenticated previous ≠ isAuthenticated current →
  authChangeEffect previous current w =
  (current, {| drafts := ∅; queryCache := [];
               calls := calls w ++ crossing_calls previous current |}).
Proof.
  intros Hflip. unfold authChangeEffect. rewrite guard_is_flag_change.
  unfold crossing_calls.
  destruct (isAuthenticated previous), (isAuthenticated current); try done;
    unfold seq_eff, queryClient_invalidateQueries, queryClient_clear,
      clearDraftsOnAuthChange, log; simpl; by rewrite <-!app_assoc.
Qed.

Lemma authChangeEffect_same previous current w :
  isAuthenticated previous = isAuthenticated current →
  authChangeEffect previous current w = (current, w).
Proof.
  intros Hsame. unfold authChangeEffect. rewrite guard_is_flag_change, Hsame.
  by rewrite Bool.eqb_reflx.
Qed.

Lemma render_synced a h w :
  hook_inv h → hook_synced (render a (h, w)).1 a.
Proof.
  intros Hinv. unfold render, authChangeEffect. case_bool_decide as Hdeps; simpl.
  - split; [done | by apply Hinv].
  - done.
Qed.

Lemma hook_synced_inv h a : hook_synced h a → hook_inv h.
Proof. intros [Hd Hr] b Hb. congruence. Qed.

Lemma renders_inv states h w : hook_inv h → hook_inv (renders states (h, w)).1.
Proof.
  revert h w. induction states as [|a states IH]; intros h w Hinv; [done|].
  change (renders (a :: states) (h, w)) with (renders states (render a (h, w))).
  destruct (render a (h, w)) as [h' w'] eqn:Hr.
  apply IH. eapply hook_synced_inv.
  pose proof (render_synced a h w Hinv) as Hs. by rewrite Hr in Hs.
Qed.

Lemma renders_snoc states a hw : renders (states ++ [a]) hw = render a (renders states hw).
Proof. unfold renders. by rewrite fold_left_app. Qed.

Lemma renders_synced history previous w0 :
  hook_synced (renders (history ++ [previous]) (mountHook, w0)).1 previous.
Proof.
  rewrite renders_snoc.
  destruct (renders history (mountHook, w0)) as [h w] eqn:Hr.
  apply render_synced.
  pose proof (renders_inv history mountHook w0) as Hinv.
  rewrite Hr in Hinv. apply Hinv. by intros b.
Qed.

Lemma render_crossing previous current h w :
  hook_synced h previous →
  isAuthenticated previous ≠ isAuthenticated current →
  render current (h, w) =
  ({| prevAuthState := current; effectDeps := Some (isAuthenticated current) |},
   {| drafts := ∅; queryCache := [];
      calls := calls w ++ crossing_calls (prevAuthState h) current |}).
Proof.
  intros [Hd Hr] Hflip. unfold render.
  rewrite bool_decide_eq_false_2 by congruence.
  rewrite authChangeEffect_crossing by congruence. done.
Qed.

Lemma render_same previous current h w :
  hook_synced h previous →
  isAuthenticated previous = isAuthenticated current →
  (render current (h, w)).2 = w.
Proof.
  intros [Hd Hr] Hsame. unfold render.
  by rewrite bool_decide_eq_true_2 by congruence.
Qed.
End auth_effect.

(** C2. For every pair of successive auth states whose [isAuthenticated]
    flags differ, in either direction, the auth-change effect clears all
    drafts through the Draft Manager, clears the entire query cache and
    then invalidates the ['company'] and ['companies'] queries. *)
Theorem auth_crossing_clears
    (history : list AuthState) (previous current : AuthState) (w0 : World) :
  isAuthenticated previous ≠ isAuthenticated current →
  let before := renders (history ++ [previous]) (mountHook, w0) in
  let after := render current before in
  drafts after.2 = ∅
  ∧ (∀ kind, getDrafts kind after.2 = [])
  ∧ queryCache after.2 = []
  ∧ calls after.2 = calls before.2 ++ crossing_calls previous current
  ∧ prevAuthState after.1 = current.
Proof.
  intros Hflip before after.
  pose proof (renders_synced history previous w0) as Hsync. fold before in Hsync.
  subst after. destruct before as [h w].
  rewrite (render_crossing previous current) by done. simpl.
  split_and!; try done.
  destruct Hsync as [_ Href]. simpl in Href. unfold crossing_calls. by rewrite Href.
Qed.

Lemma auth_crossing_clears_witness :
  isAuthenticated loggedOut ≠ isAuthenticated loggedIn
  ∧ isAuthenticated loggedIn ≠ isAuthenticated loggedOut
  ∧ queryCache (render loggedIn
                  (renders ([] ++ [loggedOut]) (mountHook, sampleWorld))).2 = []
  ∧ drafts (render loggedOut
              (renders ([loggedOut] ++ [loggedIn]) (mountHook, sampleWorld))).2 = ∅.
Proof.
  assert (isAuthenticated loggedOut ≠ isAuthenticated loggedIn) as Hin by discriminate.
  assert (isAuthenticated loggedIn ≠ isAuthenticated loggedOut) as Hout by discriminate.
  split_and!.
  - exact Hin.
  - exact Hout.
  - exact (proj1 (proj2 (proj2
      (auth_crossing_clears [] loggedOut loggedIn sampleWorld Hin)))).
  - exact (proj1 (auth_crossing_clears [loggedOut] loggedIn loggedOut sampleWorld Hout)).
Defined.

(** C5. For every pair of successive auth states in which the
    authenticated flag does not flip (previous [isAuthenticated] equals
    current [isAuthenticated]), the auth-change effect leaves the draft
    store and the query cache unchanged and makes no call on the Draft
    Manager or the query client.  In the code's terms the guard
    [wasUnauthenticated !== !isNowAuthenticated] is false then: its two
    sides are equal, which the last conjunct records. *)
Theorem auth_same_flag_noop
    (history : list AuthState) (previous current : AuthState) (w0 : World) :
  isAuthenticated previous = isAuthenticated current →
  let before := renders (history ++ [previous]) (mountHook, w0) in
  let after := render current before in
  after.2 = before.2
  ∧ (∀ w, (authChangeEffect previous current w).2 = w)
  ∧ Bool.eqb (negb (isAuthenticated previous)) (negb (isAuthenticated current)) = true.
Proof.
  intros Hsame before after.
  pose proof (renders_synced history previous w0) as Hsync. fold before in Hsync.
  subst after. destruct before as [h w]. split_and!.
  - by apply (render_same previous).
  - intros w'. by rewrite authChangeEffect_same.
  - rewrite Hsame. apply Bool.eqb_reflx.
Qed.

Lemma auth_same_flag_noop_witness :
  isAuthenticated loggedIn = isAuthenticated loggedInRefreshed
  ∧ (render loggedInRefreshed
       (renders ([loggedOut] ++ [loggedIn]) (mountHook, sampleWorld))).2
    = (renders ([loggedOut] ++ [loggedIn]) (mountHook, sampleWorld)).2.
Proof.
  split; [reflexivity|].
  exact (proj1 (auth_same_flag_noop [loggedOut] loggedIn loggedInRefreshed
                  sampleWorld eq_refl)).
Defined.

(** The other side of the guard, on an example: going from logged out to
    logged in, the two sides of the guard differ and the effect clears the
    drafts and the query cache. *)
Lemma flip_clears_example :
  Bool.eqb (negb (isAuthenticated loggedOut)) (negb (isAuthenticated loggedIn)) = false
  ∧ getDrafts "account" sampleWorld ≠ []
  ∧ getDrafts "account" (authChangeEffect loggedOut loggedIn sampleWorld).2 = []
  ∧ queryCache sampleWorld ≠ []
  ∧ queryCache (authChangeEffect loggedOut loggedIn sampleWorld).2 = []
  ∧ (render loggedIn (renders [loggedOut] (mountHook, sampleWorld))).2
    ≠ (renders [loggedOut] (mountHook, sampleWorld)).2.
Proof.
  split_and!; vm_compute; done.
Qed.

(** ** Rate-limit headers *)

Example parseInt10_samples :
  parseInt10 "100" = Num 100 ∧ parseInt10 "  -42px" = Num (-42)
  ∧ parseInt10 "" = NaN ∧ parseInt10 "abc" = NaN ∧ parseInt10 "+7" = Num 7.
Proof. by vm_compute. Qed.

Example parseRateLimitHeaders_retry :
  parseRateLimitHeaders retryResponse =
  Some {| limit := Num 100; remaining := Num 0; reset := Num 1700000000;
          retryAfter := Some (Num 30) |}.
Proof. by vm_compute. Qed.

Lemma truthy_string_false (s : option string) :
  truthy_string s = false ↔ s = None ∨ s = Some "".
Proof.
  destruct s as [t|]; simpl.
  - rewrite negb_false_iff, String.eqb_eq. split.
    + intros ->. by right.
    + by intros [?|[= ->]].
  - split; [by left | done].
Qed.

Lemma retryAfter_cases (ra : option string) :
  (if truthy_string ra then Some (parseInt ra) else None) =
  match ra with
  | Some t => if decide (t = "") then None else Some (parseInt10 t)
  | None => None
  end.
Proof.
  destruct ra as [t|]; simpl; [|done].
  case_decide as Ht.
  - subst t. done.
  - apply String.eqb_neq in Ht. by rewrite Ht.
Qed.

(** C6 (as the code has it). [parseRateLimitHeaders] returns a structured
    value exactly when each of [X-RateLimit-Limit], [X-RateLimit-Remaining]
    and [X-RateLimit-Reset] is present with a non-empty value: then it
    returns the three values read by [parseInt(_, 10)], with [retryAfter]
    read from [Retry-After] when that header is present and non-empty and
    undefined otherwise.  When one of the three is absent or empty it
    returns [null]; it never raises.  The two header sets of the scenario
    give [{limit:100, remaining:99, reset:1700000000, retryAfter:undefined}]
    and [null]. *)
Theorem parseRateLimitHeaders_structured :
  (∀ response info,
     parseRateLimitHeaders response = Some info ↔
     ∃ l rm rs,
       headers_get "X-RateLimit-Limit" (headers response) = Some l ∧ l ≠ ""
       ∧ headers_get "X-RateLimit-Remaining" (headers response) = Some rm ∧ rm ≠ ""
       ∧ headers_get "X-RateLimit-Reset" (headers response) = Some rs ∧ rs ≠ ""
       ∧ info = {| limit := parseInt10 l;
                   remaining := parseInt10 rm;
                   reset := parseInt10 rs;
                   retryAfter :=
                     match headers_get "Retry-After" (headers response) with
                     | Some ra => if decide (ra = "") then None else Some (parseInt10 ra)
                     | None => None
                     end |})
  ∧ (∀ response,
       parseRateLimitHeaders response = None ↔
       ∃ name,
         name ∈ ["X-RateLimit-Limit"; "X-RateLimit-Remaining"; "X-RateLimit-Reset"]
         ∧ (headers_get name (headers response) = None
            ∨ headers_get name (headers response) = Some ""))
  ∧ parseRateLimitHeaders fullResponse =
    Some {| limit := Num 100; remaining := Num 99; reset := Num 1700000000;
            retryAfter := None |}
  ∧ parseRateLimitHeaders noRemainingResponse = None.
Proof.
  split_and!; [| |by vm_compute..].
  - intros response info. unfold parseRateLimitHeaders.
    rewrite retryAfter_cases.
    destruct (truthy_string (headers_get "X-RateLimit-Limit" _)) eqn:Hl;
      [destruct (truthy_string (headers_get "X-RateLimit-Remaining" _)) eqn:Hrm;
       [destruct (truthy_string (headers_get "X-RateLimit-Reset" _)) eqn:Hrs|]|];
      simpl.
    + apply truthy_string_spec in Hl as (l & Hl & ?).
      apply truthy_string_spec in Hrm as (rm & Hrm & ?).
      apply truthy_string_spec in Hrs as (rs & Hrs & ?).
      rewrite Hl, Hrm, Hrs. simpl. split.
      * intros [= <-]. by exists l, rm, rs.
      * intros (l' & rm' & rs' & [= <-] & _ & [= <-] & _ & [= <-] & _ & ->). done.
    + split; [done|]. intros (l & rm & rs & _ & _ & _ & _ & Hrs' & ? & _).
      apply truthy_string_false in Hrs as [Hrs|Hrs]; congruence.
    + split; [done|]. intros (l & rm & rs & _ & _ & Hrm' & ? & _).
      apply truthy_string_false in Hrm as [Hrm|Hrm]; congruence.
    + split; [done|]. intros (l & rm & rs & Hl' & ? & _).
      apply truthy_string_false in Hl as [Hl|Hl]; congruence.
  - intros response. unfold parseRateLimitHeaders.
    destruct (truthy_string (headers_get "X-RateLimit-Limit" _)) eqn:Hl;
      [destruct (truthy_string (headers_get "X-RateLimit-Remaining" _)) eqn:Hrm;
       [destruct (truthy_string (headers_get "X-RateLimit-Reset" _)) eqn:Hrs|]|];
      simpl.
    + split; [done|]. intros (name & Hname & Hmiss).
      apply truthy_string_false in Hmiss.
      rewrite !elem_of_cons, elem_of_nil in Hname.
      destruct Hname as [->|[->|[->|[]]]]; congruence.
    + split; [intros _|done]. exists "X-RateLimit-Reset".
      split; [|by apply truthy_string_false]. set_solver.
    + split; [intros _|done]. exists "X-RateLimit-Remaining".
      split; [|by apply truthy_string_false]. set_solver.
    + split; [intros _|done]. exists "X-RateLimit-Limit".
      split; [|by apply truthy_string_false]. set_solver.
Qed.

(** C6 as stated fails: all three primary headers are present, the limit
    with an empty value, and the result is [null]. *)
Lemma present_but_empty_header_is_null :
  is_Some (headers_get "X-RateLimit-Limit" (headers emptyLimitResponse))
  ∧ is_Some (headers_get "X-RateLimit-Remaining" (headers emptyLimitResponse))
  ∧ is_Some (headers_get "X-RateLimit-Reset" (headers emptyLimitResponse))
  ∧ parseRateLimitHeaders emptyLimitResponse = None.
Proof. split_and!; [eexists; by vm_compute..| by vm_compute]. Qed.

(** ** Target accounts in local storage *)

Section findIndex_facts.
Context {A : Type} (p : A → bool).
Implicit Types (l : list A).

Lemma findIndex_range l : (-1 ≤ findIndex p l < Z.of_nat (length l))%Z.
Proof.
  induction l as [|x l IH]; simpl; [lia|].
  destruct (p x); [lia|]. destruct (Z.eqb_spec (findIndex p l) (-1)); lia.
Qed.

Lemma findIndex_miss l : findIndex p l = (-1)%Z ↔ Forall (λ x, p x = false) l.
Proof.
  induction l as [|x l IH]; simpl.
  - split; [constructor | done].
  - rewrite Forall_cons. destruct (p x) eqn:Hx.
    + split; [lia | intros [? _]; done].
    + pose proof (findIndex_range l).
      destruct (Z.eqb_spec (findIndex p l) (-1)) as [Heq|Hne].
      * split; [intros _; split; [done | by apply IH] | done].
      * split; [lia | intros [_ Hall]; apply IH in Hall; lia].
Qed.

(** A non-negative result is the position of the first element that
    satisfies [p]. *)
Lemma findIndex_hit l :
  (0 ≤ findIndex p l)%Z →
  ∃ x, l !! Z.to_nat (findIndex p l) = Some x ∧ p x = true
       ∧ Forall (λ y, p y = false) (take (Z.to_nat (findIndex p l)) l).
Proof.
  induction l as [|x l IH]; simpl; [lia|].
  destruct (p x) eqn:Hx.
  - intros _. exists x. split_and!; [done | done | constructor].
  - pose proof (findIndex_range l).
    destruct (Z.eqb_spec (findIndex p l) (-1)) as [Heq|Hne]; [lia|].
    intros _. destruct IH as (y & Hy & Hpy & Hbefore); [lia|].
    exists y. replace (Z.to_nat (findIndex p l + 1)) with (S (Z.to_nat (findIndex p l))) by lia.
    split_and!; [done | done |]. simpl. by constructor.
Qed.

Lemma findIndex_find l x :
  List.find p l = Some x →
  (0 ≤ findIndex p l)%Z ∧ l !! Z.to_nat (findIndex p l) = Some x.
Proof.
  induction l as [|y l IH]; simpl; [done|].
  destruct (p y) eqn:Hy.
  - intros [= ->]. done.
  - intros Hfind. destruct (IH Hfind) as [Hge Hlook].
    destruct (Z.eqb_spec (findIndex p l) (-1)) as [Heq|Hne]; [lia|].
    split; [lia|].
    by replace (Z.to_nat (findIndex p l + 1)) with (S (Z.to_nat (findIndex p l))) by lia.
Qed.

Lemma find_miss l : Forall (λ x, p x = false) l → List.find p l = None.
Proof.
  induction 1 as [|x l Hx Hl IH]; simpl; [done|]. by rewrite Hx.
Qed.
End findIndex_facts.

Lemma Forall_id_differs {A : Type} (f : A → string) (i : string) (l : list A) :
  i ∉ f <$> l ↔ Forall (λ x, String.eqb (f x) i = false) l.
Proof.
  induction l as [|x l IH]; simpl.
  - split; [constructor | intros _; apply not_elem_of_nil].
  - rewrite not_elem_of_cons, Forall_cons, IH, String.eqb_neq.
    split; intros [? ?]; split; congruence.
Qed.

(** C7. Local lookup misses are not exceptions and write nothing: for
    every stored account list, [updatePersonaForTargetAccount] with an
    account id that matches no stored account, or with a persona whose id
    matches no persona of the account found, returns and leaves local
    storage as it was; [getPersonasForTargetAccount] with an unknown
    account id returns the empty list. *)
Theorem local_lookup_miss
    (ls : LocalStorage) (l : list TargetAccount)
    (accountId : string) (persona : TargetPersonaResponse) :
  getStoredTargetAccounts ls = Returned l →
  (accountId ∉ (account_id <$> l) →
     updatePersonaForTargetAccount accountId persona ls = Returned ls
     ∧ getPersonasForTargetAccount accountId ls = Returned [])
  ∧ (∀ account,
       List.find (λ p, String.eqb (account_id p) accountId) l = Some account →
       persona_id persona ∉ (persona_id <$> default [] (account_personas account)) →
       updatePersonaForTargetAccount accountId persona ls = Returned ls).
Proof.
  intros Hstored. split.
  - intros Hmiss. apply Forall_id_differs in Hmiss.
    unfold updatePersonaForTargetAccount, getPersonasForTargetAccount.
    rewrite Hstored. simpl. split.
    + apply findIndex_miss in Hmiss. by rewrite Hmiss.
    + by rewrite find_miss.
  - intros account Hfound Hmiss.
    apply findIndex_find in Hfound as [Hidx Hlook].
    unfold updatePersonaForTargetAccount. rewrite Hstored. simpl.
    destruct (Z.eqb_spec (findIndex (λ p, String.eqb (account_id p) accountId) l) (-1))
      as [Heq|_]; [lia|].
    rewrite Hlook. destruct (account_personas account) as [personas|]; [|done].
    simpl in Hmiss. apply Forall_id_differs, findIndex_miss in Hmiss.
    by rewrite Hmiss.
Qed.

Lemma local_lookup_miss_witness :
  getStoredTargetAccounts sampleStorage = Returned [acme; globex]
  ∧ updatePersonaForTargetAccount "a9" cto sampleStorage = Returned sampleStorage
  ∧ getPersonasForTargetAccount "a9" sampleStorage = Returned []
  ∧ updatePersonaForTargetAccount "a1" cto sampleStorage = Returned sampleStorage
  ∧ updatePersonaForTargetAccount "a2" cto sampleStorage = Returned sampleStorage.
Proof.
  assert (getStoredTargetAccounts sampleStorage = Returned [acme; globex]) as Hstored
    by reflexivity.
  pose proof (local_lookup_miss sampleStorage _ "a9" cto Hstored) as [Hunknown _].
  pose proof (local_lookup_miss sampleStorage _ "a1" cto Hstored) as [_ Hacme].
  pose proof (local_lookup_miss sampleStorage _ "a2" cto Hstored) as [_ Hglobex].
  split_and!.
  - exact Hstored.
  - apply Hunknown. apply (bool_decide_unpack _). vm_compute. exact I.
  - apply Hunknown. apply (bool_decide_unpack _). vm_compute. exact I.
  - apply (Hacme acme); [reflexivity|].
    apply (bool_decide_unpack _). vm_compute. exact I.
  - apply (Hglobex globex); [reflexivity|].
    apply (bool_decide_unpack _). vm_compute. exact I.
Defined.

(** C8 (as the code has it). [getStoredTargetAccounts] returns the empty
    list when nothing, or the empty text, is stored under the key, and the
    stored list when the stored text is the JSON text of a list; when the
    stored text is a non-empty text that is not JSON, the [SyntaxError] of
    [JSON.parse] reaches the caller. *)
Theorem getStoredTargetAccounts_outcome (ls : LocalStorage) :
  (ls !! target_accounts_key = None → getStoredTargetAccounts ls = Returned [])
  ∧ (ls !! target_accounts_key = Some (NotJson "") →
     getStoredTargetAccounts ls = Returned [])
  ∧ (∀ l, ls !! target_accounts_key = Some (JsonAccounts l) →
          getStoredTargetAccounts ls = Returned l)
  ∧ (∀ text, text ≠ "" → ls !! target_accounts_key = Some (NotJson text) →
             getStoredTargetAccounts ls = Thrown SyntaxError)
  ∧ ((∃ l, getStoredTargetAccounts ls = Returned l) ↔
     ¬ ∃ text, text ≠ "" ∧ ls !! target_accounts_key = Some (NotJson text)).
Proof.
  unfold getStoredTargetAccounts.
  destruct (ls !! target_accounts_key) as [[l|text]|] eqn:Hstored; simpl.
  - split_and!; try done.
    + by intros l' [= ->].
    + split; [|by exists l]. intros _ (text & _ & [=]).
  - destruct (String.eqb_spec text "") as [->|Hne]; simpl.
    + split_and!; try done.
      * intros text Hne [= <-]. done.
      * split; [|by exists []]. intros _ (text & Hne & [= <-]). done.
    + split_and!; try done.
      * by intros [= ->].
      * split; [by intros [l [=]]|]. intros Hnot. destruct Hnot. by exists text.
  - split_and!; try done.
    split; [|by exists []]. intros _ (text & _ & [=]).
Qed.

(** C8 as stated fails: a corrupted stored value makes the read throw. *)
Lemma corrupted_storage_read_throws :
  getStoredTargetAccounts corruptStorage = Thrown SyntaxError
  ∧ ¬ ∃ l, getStoredTargetAccounts corruptStorage = Returned l.
Proof. split; [reflexivity|]. intros [l Hl]. vm_compute in Hl. discriminate. Qed.

Section upsert_facts.
Implicit Types (l : list TargetAccount) (a old : TargetAccount) (i : string).

Lemma filter_id_none l i :
  i ∉ account_id <$> l → filter (λ p, account_id p = i) l = [].
Proof.
  induction l as [|x l IH]; [done|].
  rewrite fmap_cons, not_elem_of_cons. intros [Hne Hnin].
  rewrite filter_cons_False by congruence. by apply IH.
Qed.

Lemma filter_other_all l i :
  i ∉ account_id <$> l → filter (λ p, account_id p ≠ i) l = l.
Proof.
  induction l as [|x l IH]; [done|].
  rewrite fmap_cons, not_elem_of_cons. intros [Hne Hnin].
  rewrite filter_cons_True by congruence. f_equal. by apply IH.
Qed.

(** With distinct ids, the one account of a given id splits the list
    into two parts that do not hold that id. *)
Lemma NoDup_id_split l n old :
  NoDup (account_id <$> l) → l !! n = Some old →
  (account_id old ∉ account_id <$> take n l)
  ∧ (account_id old ∉ account_id <$> drop (S n) l).
Proof.
  intros Hnd Hold. rewrite <-(take_drop_middle l n old Hold) in Hnd.
  rewrite fmap_app, fmap_cons in Hnd.
  apply NoDup_app in Hnd as (_ & Hdisj & Hnd).
  apply NoDup_cons in Hnd as [Hnin _]. split; [|done].
  intros Hin. apply (Hdisj _ Hin). apply elem_of_cons. by left.
Qed.

Lemma replace_in_place l n old a :
  NoDup (account_id <$> l) → l !! n = Some old → account_id old = account_id a →
  filter (λ p, account_id p ≠ account_id a) (<[n := a]> l)
    = filter (λ p, account_id p ≠ account_id a) l
  ∧ filter (λ p, account_id p = account_id a) (<[n := a]> l) = [a]
  ∧ account_id <$> <[n := a]> l = account_id <$> l.
Proof.
  intros Hnd Hold Hid.
  destruct (NoDup_id_split l n old Hnd Hold) as [Hbefore Hafter].
  rewrite Hid in Hbefore, Hafter.
  assert (n < length l) as Hlen by (by eapply lookup_lt_Some).
  split_and!.
  - rewrite insert_take_drop by done.
    rewrite <-(take_drop_middle l n old Hold) at 3.
    rewrite !filter_app. f_equal.
    rewrite !filter_cons_False; [done | intros Hne; by apply Hne..].
  - rewrite insert_take_drop by done.
    rewrite filter_app, filter_cons_True by done.
    by rewrite !filter_id_none.
  - rewrite list_fmap_insert. apply list_insert_id.
    by rewrite list_lookup_fmap, Hold, <-Hid.
Qed.

Lemma append_new l a :
  NoDup (account_id <$> l) → account_id a ∉ account_id <$> l →
  filter (λ p, account_id p ≠ account_id a) (l ++ [a])
    = filter (λ p, account_id p ≠ account_id a) l
  ∧ filter (λ p, account_id p = account_id a) (l ++ [a]) = [a]
  ∧ NoDup (account_id <$> (l ++ [a])).
Proof.
  intros Hnd Hnin. split_and!.
  - rewrite filter_app, filter_cons_False, filter_nil by (intros Hne; by apply Hne).
    by rewrite app_nil_r.
  - rewrite filter_app, filter_cons_True, filter_nil by done.
    by rewrite filter_id_none.
  - rewrite fmap_app. apply NoDup_app. split_and!; [done | | apply NoDup_singleton].
    intros x Hx Hx'. apply list_elem_of_singleton in Hx'. by subst.
Qed.

Lemma NoDup_id_filter (P : TargetAccount → Prop) `{∀ x, Decision (P x)} l :
  NoDup (account_id <$> l) → NoDup (account_id <$> filter P l).
Proof.
  induction l as [|x l IH]; [done|].
  rewrite fmap_cons, NoDup_cons. intros [Hnin Hnd].
  destruct (decide (P x)).
  - rewrite filter_cons_True, fmap_cons by done. apply NoDup_cons. split; [|by apply IH].
    intros Hin. apply Hnin. apply list_elem_of_fmap in Hin as (y & -> & Hy).
    apply list_elem_of_filter in Hy as [_ Hy]. apply list_elem_of_fmap. by exists y.
  - rewrite filter_cons_False by done. by apply IH.
Qed.
End upsert_facts.

(** C9. [saveTargetAccount] is an upsert that frames the other entries:
    for every stored account list with pairwise distinct ids and every
    account [a], after [saveTargetAccount(a)] the stored list holds every
    account whose id differs from [a.id] unchanged and in the same order,
    holds exactly one account of id [a.id], which is [a], put in the place
    of the account it replaces or at the end when there was none, and has
    pairwise distinct ids; [deleteTargetAccount(id)] removes exactly the
    entries of that id and keeps the ids distinct. *)
Theorem saveTargetAccount_upsert
    (ls : LocalStorage) (l : list TargetAccount) (a : TargetAccount) (id : string) :
  getStoredTargetAccounts ls = Returned l →
  NoDup (account_id <$> l) →
  (∃ l',
     saveTargetAccount a ls = Returned (<[target_accounts_key := JsonAccounts l']> ls)
     ∧ getStoredTargetAccounts (<[target_accounts_key := JsonAccounts l']> ls)
       = Returned l'
     ∧ filter (λ p, account_id p ≠ account_id a) l'
       = filter (λ p, account_id p ≠ account_id a) l
     ∧ filter (λ p, account_id p = account_id a) l' = [a]
     ∧ NoDup (account_id <$> l')
     ∧ ((∃ n old, l !! n = Some old ∧ account_id old = account_id a
                  ∧ l' = <[n := a]> l)
        ∨ ((account_id a ∉ account_id <$> l) ∧ l' = l ++ [a])))
  ∧ (∃ l',
       deleteTargetAccount id ls
       = Returned (<[target_accounts_key := JsonAccounts l']> ls)
       ∧ getStoredTargetAccounts (<[target_accounts_key := JsonAccounts l']> ls)
         = Returned l'
       ∧ l' = filter (λ p, account_id p ≠ id) l
       ∧ (∀ p, p ∈ l' ↔ p ∈ l ∧ account_id p ≠ id)
       ∧ NoDup (account_id <$> l')).
Proof.
  intros Hstored Hnd.
  assert (∀ l', getStoredTargetAccounts (<[target_accounts_key := JsonAccounts l']> ls)
                = Returned l') as Hread.
  { intros l'. unfold getStoredTargetAccounts. by rewrite lookup_insert_eq. }
  split.
  - unfold saveTargetAccount. rewrite Hstored. simpl.
    set (idx := findIndex (λ p, String.eqb (account_id p) (account_id a)) l).
    destruct (Z.leb_spec 0 idx) as [Hhit|Hmiss].
    + destruct (findIndex_hit _ l Hhit) as (old & Hold & Hid & _). fold idx in Hold.
      apply String.eqb_eq in Hid.
      destruct (replace_in_place l (Z.to_nat idx) old a Hnd Hold Hid)
        as (Hothers & Hone & Hids).
      eexists. split_and!; [done | apply Hread | done | done | by rewrite Hids |].
      left. by exists (Z.to_nat idx), old.
    + assert (idx = (-1)%Z) as Hidx
        by (pose proof (findIndex_range (λ p, String.eqb (account_id p) (account_id a)) l);
            subst idx; lia).
      apply findIndex_miss, Forall_id_differs in Hidx.
      destruct (append_new l a Hnd Hidx) as (Hothers & Hone & Hnd').
      eexists. split_and!; [done | apply Hread | done | done | done |].
      by right.
  - unfold deleteTargetAccount. rewrite Hstored. simpl.
    eexists. split_and!; [done | apply Hread | done | |].
    + intros p. rewrite list_elem_of_filter. tauto.
    + by apply NoDup_id_filter.
Qed.

Lemma saveTargetAccount_upsert_witness :
  getStoredTargetAccounts sampleStorage = Returned [acme; globex]
  ∧ NoDup (account_id <$> [acme; globex])
  ∧ (∃ l', saveTargetAccount acme_renamed sampleStorage
           = Returned (<[target_accounts_key := JsonAccounts l']> sampleStorage)
           ∧ filter (λ p, account_id p = account_id acme_renamed) l' = [acme_renamed])
  ∧ (∃ l', deleteTargetAccount "a1" sampleStorage
           = Returned (<[target_accounts_key := JsonAccounts l']> sampleStorage)
           ∧ l' = filter (λ p, account_id p ≠ "a1") [acme; globex]).
Proof.
  assert (getStoredTargetAccounts sampleStorage = Returned [acme; globex]) as Hstored
    by reflexivity.
  assert (NoDup (account_id <$> [acme; globex])) as Hnd
    by (apply (bool_decide_unpack _); vm_compute; exact I).
  destruct (saveTargetAccount_upsert sampleStorage _ acme_renamed "a1" Hstored Hnd)
    as [(l1 & Hsave & _ & _ & Hone & _) (l2 & Hdel & _ & Hl2 & _)].
  split_and!; [exact Hstored | exact Hnd | by exists l1 | by exists l2].
Defined.

(** * Further properties of the code *)

(** ** Personas of a stored account *)

Section persona_store.
Implicit Types (ls : LocalStorage) (l : list TargetAccount)
  (account : TargetAccount) (persona : TargetPersonaResponse).

Lemma findIndex_ext {A : Type} (p q : A → bool) (xs : list A) :
  (∀ x, p x = q x) → findIndex p xs = findIndex q xs.
Proof.
  intros Hpq. induction xs as [|x xs IH]; simpl; [done|]. by rewrite Hpq, IH.
Qed.

Lemma find_skip {A : Type} (p : A → bool) (xs ys : list A) :
  Forall (λ x, p x = false) xs → List.find p (xs ++ ys) = List.find p ys.
Proof. induction 1 as [|x xs Hx _ IH]; simpl; [done|]. by rewrite Hx. Qed.

Lemma find_first_replaced {A : Type} (p : A → bool) (xs : list A) (x y : A) :
  List.find p xs = Some x → p y = true →
  List.find p (<[Z.to_nat (findIndex p xs) := y]> xs) = Some y.
Proof.
  intros Hfind Hy. destruct (findIndex_find p xs x Hfind) as [Hge Hlook].
  destruct (findIndex_hit p xs Hge) as (x' & _ & _ & Hbefore).
  rewrite insert_take_drop by (by eapply lookup_lt_Some).
  rewrite find_skip by done. simpl. by rewrite Hy.
Qed.

Lemma find_other_replaced {A : Type} (q : A → bool) (xs : list A) (n : nat) (x y : A) :
  xs !! n = Some x → q x = false → q y = false →
  List.find q (<[n := y]> xs) = List.find q xs.
Proof.
  revert n. induction xs as [|z xs IH]; intros [|n] Hlook Hx Hy; try done; simpl in *.
  - injection Hlook as ->. by rewrite Hx, Hy.
  - destruct (q z); [done|]. by apply IH.
Qed.

Lemma stored_after_write ls l :
  getStoredTargetAccounts (<[target_accounts_key := JsonAccounts l]> ls) = Returned l.
Proof. unfold getStoredTargetAccounts. by rewrite lookup_insert_eq. Qed.

(** Saving a changed copy of the account found under [accountId] writes
    it to the place of that account. *)
Lemma saveTargetAccount_found ls l accountId account account' :
  getStoredTargetAccounts ls = Returned l →
  List.find (λ p, String.eqb (account_id p) accountId) l = Some account →
  account_id account' = accountId →
  saveTargetAccount account' ls =
  Returned (<[target_accounts_key :=
               JsonAccounts
                 (<[Z.to_nat (findIndex (λ p, String.eqb (account_id p) accountId) l)
                    := account']> l)]> ls).
Proof.
  intros Hstored Hfind Hid. unfold saveTargetAccount. rewrite Hstored. simpl.
  rewrite (findIndex_ext _ (λ p, String.eqb (account_id p) accountId)) by (by rewrite Hid).
  apply findIndex_find in Hfind as [Hge _].
  destruct (Z.leb_spec 0 (findIndex (λ p, String.eqb (account_id p) accountId) l));
    [done | lia].
Qed.

Lemma find_account_id l accountId account :
  List.find (λ p, String.eqb (account_id p) accountId) l = Some account →
  account_id account = accountId.
Proof. intros Hfind. apply find_some in Hfind as [_ Heq]. by apply String.eqb_eq. Qed.

(** What replacing the personas of the account found under [accountId]
    does to the store: that account now answers with the new personas,
    every other account id answers as before, and the ids and names of the
    stored accounts, their number and order, stay. *)
Lemma personas_replaced ls l accountId account personas :
  getStoredTargetAccounts ls = Returned l →
  List.find (λ p, String.eqb (account_id p) accountId) l = Some account →
  ∃ ls' l',
    saveTargetAccount (with_personas account personas) ls = Returned ls'
    ∧ getStoredTargetAccounts ls' = Returned l'
    ∧ getPersonasForTargetAccount accountId ls' = Returned personas
    ∧ (∀ other, other ≠ accountId →
         getPersonasForTargetAccount other ls' = getPersonasForTargetAccount other ls)
    ∧ account_id <$> l' = account_id <$> l
    ∧ account_name <$> l' = account_name <$> l.
Proof.
  intros Hstored Hfind.
  pose proof (find_account_id _ _ _ Hfind) as Hid.
  pose proof (findIndex_find _ _ _ Hfind) as [Hge Hlook].
  set (n := Z.to_nat (findIndex (λ p, String.eqb (account_id p) accountId) l)) in *.
  exists (<[target_accounts_key := JsonAccounts (<[n := with_personas account personas]> l)]> ls),
         (<[n := with_personas account personas]> l).
  split_and!.
  - by apply (saveTargetAccount_found ls l accountId account).
  - apply stored_after_write.
  - unfold getPersonasForTargetAccount. rewrite stored_after_write. simpl.
    subst n. rewrite (find_first_replaced _ _ account); [done | done |].
    simpl. by apply String.eqb_eq.
  - intros other Hother. unfold getPersonasForTargetAccount.
    rewrite stored_after_write, Hstored. simpl.
    rewrite (find_other_replaced _ _ _ account); [done | done | |];
      simpl; apply String.eqb_neq; congruence.
  - rewrite list_fmap_insert. apply list_insert_id. by rewrite list_lookup_fmap, Hlook.
  - rewrite list_fmap_insert. apply list_insert_id. by rewrite list_lookup_fmap, Hlook.
Qed.

Lemma lookup_found l accountId account :
  List.find (λ p, String.eqb (account_id p) accountId) l = Some account →
  (findIndex (λ p, String.eqb (account_id p) accountId) l =? -1)%Z = false
  ∧ l !! Z.to_nat (findIndex (λ p, String.eqb (account_id p) accountId) l) = Some account.
Proof.
  intros Hfind. apply findIndex_find in Hfind as [Hge Hlook]. split; [|done].
  apply Z.eqb_neq. lia.
Qed.
End persona_store.

(** X1. [addPersonaToTargetAccount] does nothing when no stored account
    has the id; otherwise the persona becomes the last persona of the
    first account of that id (an absent persona list counts as empty),
    every other account id answers as before, and the stored accounts keep
    their ids, names and order. *)
Theorem addPersona_appends
    (ls : LocalStorage) (l : list TargetAccount)
    (accountId : string) (persona : TargetPersonaResponse) :
  getStoredTargetAccounts ls = Returned l →
  (accountId ∉ (account_id <$> l) →
     addPersonaToTargetAccount accountId persona ls = Returned ls)
  ∧ (∀ account,
       List.find (λ p, String.eqb (account_id p) accountId) l = Some account →
       ∃ ls' l',
         addPersonaToTargetAccount accountId persona ls = Returned ls'
         ∧ getStoredTargetAccounts ls' = Returned l'
         ∧ getPersonasForTargetAccount accountId ls'
           = Returned (default [] (account_personas account) ++ [persona])
         ∧ (∀ other, other ≠ accountId →
              getPersonasForTargetAccount other ls'
              = getPersonasForTargetAccount other ls)
         ∧ account_id <$> l' = account_id <$> l
         ∧ account_name <$> l' = account_name <$> l).
Proof.
  intros Hstored. split.
  - intros Hmiss. apply Forall_id_differs, findIndex_miss in Hmiss.
    unfold addPersonaToTargetAccount. rewrite Hstored. simpl. by rewrite Hmiss.
  - intros account Hfind.
    destruct (personas_replaced ls l accountId account
                (default [] (account_personas account) ++ [persona]) Hstored Hfind)
      as (ls' & l' & Hsave & Hrest).
    exists ls', l'. split; [|done].
    unfold addPersonaToTargetAccount. rewrite Hstored. simpl.
    destruct (lookup_found l accountId account Hfind) as [-> ->]. done.
Qed.

Lemma addPersona_appends_witness :
  getStoredTargetAccounts sampleStorage = Returned [acme; globex]
  ∧ addPersonaToTargetAccount "a9" cto sampleStorage = Returned sampleStorage
  ∧ (∃ ls', addPersonaToTargetAccount "a1" cto sampleStorage = Returned ls'
            ∧ getPersonasForTargetAccount "a1" ls' = Returned [cfo; cto])
  ∧ (∃ ls', addPersonaToTargetAccount "a2" cto sampleStorage = Returned ls'
            ∧ getPersonasForTargetAccount "a2" ls' = Returned [cto]).
Proof.
  assert (getStoredTargetAccounts sampleStorage = Returned [acme; globex]) as Hstored
    by reflexivity.
  pose proof (addPersona_appends sampleStorage _ "a9" cto Hstored) as [Hmiss _].
  pose proof (addPersona_appends sampleStorage _ "a1" cto Hstored) as [_ Hacme].
  pose proof (addPersona_appends sampleStorage _ "a2" cto Hstored) as [_ Hglobex].
  destruct (Hacme acme eq_refl) as (ls1 & l1 & Hadd1 & _ & Hget1 & _).
  destruct (Hglobex globex eq_refl) as (ls2 & l2 & Hadd2 & _ & Hget2 & _).
  split_and!.
  - exact Hstored.
  - apply Hmiss. apply (bool_decide_unpack _). vm_compute. exact I.
  - by exists ls1.
  - by exists ls2.
Defined.

(** X2. When [updatePersonaForTargetAccount] finds the account and a
    persona of the given persona's id, the persona takes the place of the
    first persona of that id: the account keeps the number, the order and
    the ids of its personas, and every other account id answers as
    before. *)
Theorem updatePersona_replaces
    (ls : LocalStorage) (l : list TargetAccount) (accountId : string)
    (persona : TargetPersonaResponse) (account : TargetAccount)
    (personas : list TargetPersonaResponse) :
  getStoredTargetAccounts ls = Returned l →
  List.find (λ p, String.eqb (account_id p) accountId) l = Some account →
  account_personas account = Some personas →
  persona_id persona ∈ persona_id <$> personas →
  ∃ ls' j old,
    updatePersonaForTargetAccount accountId persona ls = Returned ls'
    ∧ personas !! j = Some old
    ∧ persona_id old = persona_id persona
    ∧ Forall (λ p, persona_id p ≠ persona_id persona) (take j personas)
    ∧ getPersonasForTargetAccount accountId ls' = Returned (<[j := persona]> personas)
    ∧ persona_id <$> <[j := persona]> personas = persona_id <$> personas
    ∧ (∀ other, other ≠ accountId →
         getPersonasForTargetAccount other ls'
         = getPersonasForTargetAccount other ls).
Proof.
  intros Hstored Hfind Hpersonas Hin.
  set (q := λ p, String.eqb (persona_id p) (persona_id persona)).
  assert (0 ≤ findIndex q personas)%Z as Hge.
  { pose proof (findIndex_range q personas).
    destruct (decide (findIndex q personas = (-1)%Z)) as [Hmiss|]; [|lia].
    apply findIndex_miss, Forall_id_differs in Hmiss. done. }
  destruct (findIndex_hit q personas Hge) as (old & Hold & Hq & Hbefore).
  apply String.eqb_eq in Hq.
  destruct (personas_replaced ls l accountId account
              (<[Z.to_nat (findIndex q personas) := persona]> personas) Hstored Hfind)
    as (ls' & l' & Hsave & _ & Hget & Hothers & _).
  exists ls', (Z.to_nat (findIndex q personas)), old. split_and!; try done.
  - unfold updatePersonaForTargetAccount. rewrite Hstored. simpl.
    destruct (lookup_found l accountId account Hfind) as [-> ->].
    rewrite Hpersonas. fold q.
    destruct (Z.eqb_spec (findIndex q personas) (-1)); [lia|]. exact Hsave.
  - eapply Forall_impl; [exact Hbefore|]. intros p Hp. by apply String.eqb_neq.
  - rewrite list_fmap_insert. apply list_insert_id.
    rewrite list_lookup_fmap, Hold. simpl. by rewrite Hq.
Qed.

Lemma updatePersona_replaces_witness :
  ∃ ls', updatePersonaForTargetAccount "a1"
           {| persona_id := "p1"; persona_fields := [("title", VStr "COO")] |}
           sampleStorage = Returned ls'
         ∧ getPersonasForTargetAccount "a1" ls'
           = Returned [ {| persona_id := "p1"; persona_fields := [("title", VStr "COO")] |} ].
Proof.
  destruct (updatePersona_replaces sampleStorage [acme; globex] "a1"
              {| persona_id := "p1"; persona_fields := [("title", VStr "COO")] |}
              acme [cfo] eq_refl eq_refl eq_refl)
    as (ls' & j & old & Hupd & Hold & _ & _ & Hget & _).
  - apply (bool_decide_unpack _). vm_compute. exact I.
  - exists ls'. split; [exact Hupd|].
    destruct j as [|j]; [exact Hget | discriminate Hold].
Defined.

(** X3. [deletePersonaFromTargetAccount] does nothing when no stored
    account has the id or when the account found has no persona list;
    otherwise the account keeps, in order, exactly its personas of another
    id, and every other account id answers as before. *)
Theorem deletePersona_removes
    (ls : LocalStorage) (l : list TargetAccount) (accountId personaId : string) :
  getStoredTargetAccounts ls = Returned l →
  (accountId ∉ (account_id <$> l) →
     deletePersonaFromTargetAccount accountId personaId ls = Returned ls)
  ∧ (∀ account,
       List.find (λ p, String.eqb (account_id p) accountId) l = Some account →
       account_personas account = None →
       deletePersonaFromTargetAccount accountId personaId ls = Returned ls)
  ∧ (∀ account personas,
       List.find (λ p, String.eqb (account_id p) accountId) l = Some account →
       account_personas account = Some personas →
       ∃ ls' remaining,
         deletePersonaFromTargetAccount accountId personaId ls = Returned ls'
         ∧ getPersonasForTargetAccount accountId ls' = Returned remaining
         ∧ remaining = filter (λ p, persona_id p ≠ personaId) personas
         ∧ (personaId ∉ persona_id <$> remaining)
         ∧ (∀ other, other ≠ accountId →
              getPersonasForTargetAccount other ls'
              = getPersonasForTargetAccount other ls)).
Proof.
  intros Hstored. split_and!.
  - intros Hmiss. apply Forall_id_differs, findIndex_miss in Hmiss.
    unfold deletePersonaFromTargetAccount. rewrite Hstored. simpl. by rewrite Hmiss.
  - intros account Hfind Hnone.
    unfold deletePersonaFromTargetAccount. rewrite Hstored. simpl.
    destruct (lookup_found l accountId account Hfind) as [-> ->]. by rewrite Hnone.
  - intros account personas Hfind Hpersonas.
    destruct (personas_replaced ls l accountId account
                (filter (λ p, persona_id p ≠ personaId) personas) Hstored Hfind)
      as (ls' & l' & Hsave & _ & Hget & Hothers & _).
    exists ls', (filter (λ p, persona_id p ≠ personaId) personas).
    split_and!; try done.
    + unfold deletePersonaFromTargetAccount. rewrite Hstored. simpl.
      destruct (lookup_found l accountId account Hfind) as [-> ->]. by rewrite Hpersonas.
    + intros Hin. apply list_elem_of_fmap in Hin as (p & Hp & Hpin).
      apply list_elem_of_filter in Hpin as [Hne _]. by apply Hne.
Qed.

Lemma deletePersona_removes_witness :
  getStoredTargetAccounts sampleStorage = Returned [acme; globex]
  ∧ deletePersonaFromTargetAccount "a9" "p1" sampleStorage = Returned sampleStorage
  ∧ deletePersonaFromTargetAccount "a2" "p1" sampleStorage = Returned sampleStorage
  ∧ (∃ ls', deletePersonaFromTargetAccount "a1" "p1" sampleStorage = Returned ls'
            ∧ getPersonasForTargetAccount "a1" ls' = Returned []).
Proof.
  assert (getStoredTargetAccounts sampleStorage = Returned [acme; globex]) as Hstored
    by reflexivity.
  pose proof (deletePersona_removes sampleStorage _ "a9" "p1" Hstored) as (Hmiss & _ & _).
  pose proof (deletePersona_removes sampleStorage _ "a2" "p1" Hstored) as (_ & Hnone & _).
  pose proof (deletePersona_removes sampleStorage _ "a1" "p1" Hstored) as (_ & _ & Hhit).
  destruct (Hhit acme [cfo] eq_refl eq_refl) as (ls' & remaining & Hdel & Hget & -> & _).
  split_and!.
  - exact Hstored.
  - apply Hmiss. apply (bool_decide_unpack _). vm_compute. exact I.
  - exact (Hnone globex eq_refl eq_refl).
  - exists ls'. split; [exact Hdel | exact Hget].
Defined.

(** ** The company-wide persona view *)

Section all_personas.
Implicit Types (l : list TargetAccount) (account : TargetAccount).

Lemma push_entries account (personas : list TargetPersonaResponse) (acc : list PersonaEntry) :
  fold_left
    (λ allPersonas persona,
       allPersonas ++ [ {| entry_persona := persona;
                           entry_accountId := account_id account;
                           entry_accountName := account_name account |} ])
    personas acc
  = acc ++ ((λ persona, {| entry_persona := persona;
                           entry_accountId := account_id account;
                           entry_accountName := account_name account |}) <$> personas).
Proof.
  revert acc. induction personas as [|p personas IH]; intros acc; simpl.
  - by rewrite app_nil_r.
  - rewrite IH. by rewrite <-app_assoc.
Qed.

Lemma collect_entries l (acc : list PersonaEntry) :
  fold_left
    (λ allPersonas account,
       match account_personas account with
       | Some personas =>
           fold_left
             (λ allPersonas persona,
                allPersonas ++ [ {| entry_persona := persona;
                                    entry_accountId := account_id account;
                                    entry_accountName := account_name account |} ])
             personas allPersonas
       | None => allPersonas
       end)
    l acc
  = acc ++ (l ≫= account_entries).
Proof.
  revert acc. induction l as [|a l IH]; intros acc.
  - simpl. by rewrite app_nil_r.
  - rewrite bind_cons. cbn [fold_left]. rewrite IH, app_assoc. f_equal.
    unfold account_entries. destruct (account_personas a) as [personas|]; simpl.
    + apply push_entries.
    + by rewrite app_nil_r.
Qed.

Lemma getAllPersonas_bind ls l :
  getStoredTargetAccounts ls = Returned l →
  getAllPersonas ls = Returned (l ≫= account_entries).
Proof.
  intros Hstored. unfold getAllPersonas. rewrite Hstored. simpl.
  by rewrite collect_entries.
Qed.

Lemma entries_of_account account (accountId : string) :
  filter (λ e, entry_accountId e = accountId) (account_entries account)
  = if decide (account_id account = accountId) then account_entries account else [].
Proof.
  unfold account_entries. generalize (default [] (account_personas account)) as ps.
  induction ps as [|p ps IH]; [by case_decide|].
  rewrite fmap_cons. destruct (decide (account_id account = accountId)) as [Heq|Hne].
  - rewrite filter_cons_True by done. by rewrite IH.
  - by rewrite filter_cons_False.
Qed.

Lemma entries_of_unknown l (accountId : string) :
  accountId ∉ account_id <$> l →
  filter (λ e, entry_accountId e = accountId) (l ≫= account_entries) = [].
Proof.
  induction l as [|a l IH]; [done|].
  rewrite fmap_cons, not_elem_of_cons. intros [Hne Hnin].
  rewrite bind_cons, filter_app, entries_of_account, decide_False by done.
  by apply IH.
Qed.

Lemma entry_personas account :
  entry_persona <$> account_entries account = default [] (account_personas account).
Proof.
  unfold account_entries. rewrite <-list_fmap_compose. apply list_fmap_id.
Qed.
End all_personas.

(** X4. [getAllPersonas] lists the personas of all stored accounts,
    account by account in stored order, each with the id and the name
    of its account.  When the stored ids are pairwise distinct, the
    personas it lists under an account id are the personas
    [getPersonasForTargetAccount] returns for that id, in the same
    order. *)
Theorem getAllPersonas_by_account
    (ls : LocalStorage) (l : list TargetAccount) (accountId : string) :
  getStoredTargetAccounts ls = Returned l →
  NoDup (account_id <$> l) →
  ∃ entries,
    getAllPersonas ls = Returned entries
    ∧ entries = l ≫= account_entries
    ∧ Forall (λ e, ∃ account, account ∈ l
                     ∧ entry_accountId e = account_id account
                     ∧ entry_accountName e = account_name account
                     ∧ entry_persona e ∈ default [] (account_personas account)) entries
    ∧ getPersonasForTargetAccount accountId ls
      = Returned (entry_persona <$> filter (λ e, entry_accountId e = accountId) entries).
Proof.
  intros Hstored Hnd. exists (l ≫= account_entries).
  split_and!; [by apply getAllPersonas_bind | done | |].
  - apply Forall_forall. intros e He.
    apply list_elem_of_bind in He as (account & He & Hin).
    exists account. unfold account_entries in He.
    apply list_elem_of_fmap in He as (p & -> & Hp). done.
  - unfold getPersonasForTargetAccount. rewrite Hstored. simpl. f_equal.
    clear Hstored. induction l as [|a l IH]; [done|].
    rewrite fmap_cons in Hnd. apply NoDup_cons in Hnd as [Hnin Hnd].
    rewrite bind_cons, filter_app, entries_of_account. simpl.
    destruct (String.eqb_spec (account_id a) accountId) as [Heq|Hne].
    + rewrite decide_True by done. subst accountId.
      rewrite entries_of_unknown, app_nil_r by done. by rewrite entry_personas.
    + rewrite decide_False by done. simpl. by apply IH.
Qed.

Lemma getAllPersonas_by_account_witness :
  getStoredTargetAccounts sampleStorage = Returned [acme; globex]
  ∧ NoDup (account_id <$> [acme; globex])
  ∧ ∃ entries,
      getAllPersonas sampleStorage = Returned entries
      ∧ getPersonasForTargetAccount "a1" sampleStorage
        = Returned (entry_persona <$> filter (λ e, entry_accountId e = "a1") entries).
Proof.
  assert (getStoredTargetAccounts sampleStorage = Returned [acme; globex]) as Hstored
    by reflexivity.
  assert (NoDup (account_id <$> [acme; globex])) as Hnd
    by (apply (bool_decide_unpack _); vm_compute; exact I).
  destruct (getAllPersonas_by_account sampleStorage _ "a1" Hstored Hnd)
    as (entries & Hall & _ & _ & Hget).
  split_and!; [exact Hstored | exact Hnd | by exists entries].
Defined.

(** ** How the account operations compose *)

Section store_composition.
Implicit Types (ls : LocalStorage) (l xs ys : list TargetAccount) (a : TargetAccount).

Lemma findIndex_first {A : Type} (p : A → bool) (pre post : list A) (y : A) :
  Forall (λ x, p x = false) pre → p y = true →
  findIndex p (pre ++ y :: post) = Z.of_nat (length pre).
Proof.
  intros Hpre Hy. induction Hpre as [|x pre Hx _ IH]; simpl.
  - by rewrite Hy.
  - rewrite Hx, IH. destruct (Z.eqb_spec (Z.of_nat (length pre)) (-1)); lia.
Qed.

Lemma filter_drop_id xs ys a :
  filter (λ p, account_id p ≠ account_id a) (xs ++ a :: ys)
  = filter (λ p, account_id p ≠ account_id a) (xs ++ ys).
Proof. rewrite !filter_app. f_equal. apply filter_cons_False. intros Hne. by apply Hne. Qed.

(** The list [saveTargetAccount] writes: the account sits behind a part
    that does not hold its id, and apart from accounts of that id the list
    is the list that was stored. *)
Lemma saveTargetAccount_shape ls l a :
  getStoredTargetAccounts ls = Returned l →
  ∃ xs ys,
    saveTargetAccount a ls
    = Returned (<[target_accounts_key := JsonAccounts (xs ++ a :: ys)]> ls)
    ∧ Forall (λ p, String.eqb (account_id p) (account_id a) = false) xs
    ∧ filter (λ p, account_id p ≠ account_id a) (xs ++ ys)
      = filter (λ p, account_id p ≠ account_id a) l.
Proof.
  intros Hstored. unfold saveTargetAccount. rewrite Hstored. simpl.
  set (P := λ p, String.eqb (account_id p) (account_id a)).
  destruct (Z.leb_spec 0 (findIndex P l)) as [Hhit|Hmiss].
  - destruct (findIndex_hit P l Hhit) as (old & Hold & Hid & Hbefore).
    apply String.eqb_eq in Hid.
    exists (take (Z.to_nat (findIndex P l)) l), (drop (S (Z.to_nat (findIndex P l))) l).
    split_and!; [| done |].
    + by rewrite insert_take_drop by (by eapply lookup_lt_Some).
    + transitivity (filter (λ p, account_id p ≠ account_id a)
                      (take (Z.to_nat (findIndex P l)) l
                       ++ old :: drop (S (Z.to_nat (findIndex P l))) l));
        [|by rewrite take_drop_middle].
      rewrite !filter_app. f_equal. symmetry. apply filter_cons_False.
      intros Hne. by apply Hne.
  - assert (findIndex P l = (-1)%Z) as Hidx by (pose proof (findIndex_range P l); lia).
    apply findIndex_miss in Hidx.
    exists l, []. by rewrite app_nil_r.
Qed.
End store_composition.

(** X5. How the account operations compose, whatever local storage
    holds: saving the same account twice is saving it once; deleting an
    id twice is deleting it once; deleting an account's id right after
    saving the account gives what deleting the id alone gives.  Saving an
    account right after deleting its id puts it behind all the others. *)
Theorem account_operations_compose (ls : LocalStorage) (a : TargetAccount) (id : string) :
  bind (saveTargetAccount a ls) (saveTargetAccount a) = saveTargetAccount a ls
  ∧ bind (deleteTargetAccount id ls) (deleteTargetAccount id) = deleteTargetAccount id ls
  ∧ bind (saveTargetAccount a ls) (deleteTargetAccount (account_id a))
    = deleteTargetAccount (account_id a) ls
  ∧ (∀ l, getStoredTargetAccounts ls = Returned l →
          bind (deleteTargetAccount (account_id a) ls) (saveTargetAccount a)
          = Returned (<[target_accounts_key :=
                         JsonAccounts
                           (filter (λ p, account_id p ≠ account_id a) l ++ [a])]> ls)).
Proof.
  destruct (getStoredTargetAccounts ls) as [l|e] eqn:Hstored.
  - destruct (saveTargetAccount_shape ls l a Hstored) as (xs & ys & Hsave & Hxs & Hfilter).
    split_and!.
    + rewrite Hsave. simpl. unfold saveTargetAccount at 1.
      rewrite stored_after_write. simpl.
      rewrite findIndex_first by (by rewrite ?String.eqb_refl).
      destruct (Z.leb_spec 0 (Z.of_nat (length xs))); [|lia].
      rewrite Nat2Z.id, insert_insert_eq. do 2 f_equal.
      by rewrite insert_app_r_alt, Nat.sub_diag by done.
    + unfold deleteTargetAccount at 1 3. rewrite Hstored. simpl.
      unfold deleteTargetAccount. rewrite stored_after_write. simpl.
      rewrite insert_insert_eq. do 3 f_equal.
      apply list_filter_filter_r. tauto.
    + rewrite Hsave. simpl. unfold deleteTargetAccount.
      rewrite stored_after_write, Hstored. simpl.
      rewrite insert_insert_eq. do 3 f_equal. by rewrite filter_drop_id.
    + intros l' [= <-]. unfold deleteTargetAccount. rewrite Hstored. simpl.
      unfold saveTargetAccount. rewrite stored_after_write. simpl.
      set (kept := filter (λ p, account_id p ≠ account_id a) l).
      assert (findIndex (λ p, String.eqb (account_id p) (account_id a)) kept = (-1)%Z)
        as ->.
      { apply findIndex_miss, Forall_forall. intros p Hp.
        apply list_elem_of_filter in Hp as [Hne _]. by apply String.eqb_neq. }
      simpl. by rewrite insert_insert_eq.
  - assert (saveTargetAccount a ls = Thrown e) as Hsave
      by (unfold saveTargetAccount; by rewrite Hstored).
    assert (∀ i, deleteTargetAccount i ls = Thrown e) as Hdel
      by (intros i; unfold deleteTargetAccount; by rewrite Hstored).
    rewrite Hsave, !Hdel. split_and!; try done.
Qed.

(** X6. A corrupted stored value breaks every operation of the account
    store: when the text under the key is non-empty and not JSON, each of
    the seven operations throws the [SyntaxError] of [JSON.parse] before
    it writes anything. *)
Theorem corrupted_store_breaks_all
    (ls : LocalStorage) (text : string) (a : TargetAccount)
    (id pid : string) (persona : TargetPersonaResponse) :
  text ≠ "" →
  ls !! target_accounts_key = Some (NotJson text) →
  saveTargetAccount a ls = Thrown SyntaxError
  ∧ deleteTargetAccount id ls = Thrown SyntaxError
  ∧ getPersonasForTargetAccount id ls = Thrown SyntaxError
  ∧ addPersonaToTargetAccount id persona ls = Thrown SyntaxError
  ∧ updatePersonaForTargetAccount id persona ls = Thrown SyntaxError
  ∧ deletePersonaFromTargetAccount id pid ls = Thrown SyntaxError
  ∧ getAllPersonas ls = Thrown SyntaxError.
Proof.
  intros Htext Hstored.
  assert (getStoredTargetAccounts ls = Thrown SyntaxError) as Hread.
  { unfold getStoredTargetAccounts. rewrite Hstored. simpl.
    apply String.eqb_neq in Htext. by rewrite Htext. }
  unfold saveTargetAccount, deleteTargetAccount, getPersonasForTargetAccount,
    addPersonaToTargetAccount, updatePersonaForTargetAccount,
    deletePersonaFromTargetAccount, getAllPersonas.
  rewrite Hread. done.
Qed.

Lemma corrupted_store_breaks_all_witness :
  "[{" ≠ ""
  ∧ corruptStorage !! target_accounts_key = Some (NotJson "[{")
  ∧ saveTargetAccount acme corruptStorage = Thrown SyntaxError
  ∧ getAllPersonas corruptStorage = Thrown SyntaxError.
Proof.
  assert ("[{" ≠ "") as Htext by discriminate.
  assert (corruptStorage !! target_accounts_key = Some (NotJson "[{")) as Hstored
    by reflexivity.
  destruct (corrupted_store_breaks_all corruptStorage "[{" acme "a1" "p1" cfo Htext Hstored)
    as (Hsave & _ & _ & _ & _ & _ & Hall).
  split_and!; [exact Htext | exact Hstored | exact Hsave | exact Hall].
Defined.

Section store_frame.
Implicit Types (ls : LocalStorage) (k : string).

Lemma saveTargetAccount_frame a ls (ls' : LocalStorage) k :
  k ≠ target_accounts_key → saveTargetAccount a ls = Returned ls' → ls' !! k = ls !! k.
Proof.
  intros Hk. unfold saveTargetAccount.
  destruct (getStoredTargetAccounts ls) as [l|e]; simpl; [|done].
  intros [= <-]. by rewrite lookup_insert_ne.
Qed.
End store_frame.

(** X7. The account store writes one key only: whenever one of its five
    writing operations returns, every entry of local storage under a key
    other than ['target_accounts'] is as it was. *)
Theorem account_store_touches_one_key
    (ls : LocalStorage) (k : string) (a : TargetAccount)
    (id pid : string) (persona : TargetPersonaResponse) :
  k ≠ target_accounts_key →
  (∀ ls', saveTargetAccount a ls = Returned ls' → ls' !! k = ls !! k)
  ∧ (∀ ls', deleteTargetAccount id ls = Returned ls' → ls' !! k = ls !! k)
  ∧ (∀ ls', addPersonaToTargetAccount id persona ls = Returned ls' → ls' !! k = ls !! k)
  ∧ (∀ ls', updatePersonaForTargetAccount id persona ls = Returned ls' →
            ls' !! k = ls !! k)
  ∧ (∀ ls', deletePersonaFromTargetAccount id pid ls = Returned ls' →
            ls' !! k = ls !! k).
Proof.
  intros Hk. split_and!; intros ls'.
  - by apply saveTargetAccount_frame.
  - unfold deleteTargetAccount.
    destruct (getStoredTargetAccounts ls) as [l|e]; simpl; [|done].
    intros [= <-]. by rewrite lookup_insert_ne.
  - unfold addPersonaToTargetAccount.
    destruct (getStoredTargetAccounts ls) as [l|e]; simpl; [|done].
    destruct (_ =? _)%Z; [by intros [= <-]|].
    destruct (l !! _) as [account|]; [|done]. by apply saveTargetAccount_frame.
  - unfold updatePersonaForTargetAccount.
    destruct (getStoredTargetAccounts ls) as [l|e]; simpl; [|done].
    destruct (_ =? _)%Z; [by intros [= <-]|].
    destruct (l !! _) as [account|]; [|done].
    destruct (account_personas account) as [personas|]; [|by intros [= <-]].
    destruct (_ =? _)%Z; [by intros [= <-]|]. by apply saveTargetAccount_frame.
  - unfold deletePersonaFromTargetAccount.
    destruct (getStoredTargetAccounts ls) as [l|e]; simpl; [|done].
    destruct (_ =? _)%Z; [by intros [= <-]|].
    destruct (l !! _) as [account|]; [|done].
    destruct (account_personas account) as [personas|]; [|by intros [= <-]].
    by apply saveTargetAccount_frame.
Qed.

Lemma account_store_touches_one_key_witness :
  "drafts_account" ≠ target_accounts_key
  ∧ ∀ ls', saveTargetAccount acme_renamed sampleStorage = Returned ls' →
           ls' !! "drafts_account" = sampleStorage !! "drafts_account".
Proof.
  assert ("drafts_account" ≠ target_accounts_key) as Hk by discriminate.
  split; [exact Hk|].
  exact (proj1 (account_store_touches_one_key sampleStorage "drafts_account"
                  acme_renamed "a1" "p1" cfo Hk)).
Defined.

(** ** Buying signals *)

Example transformBuyingSignals_sample :
  transformBuyingSignals sampleSignals =
  Returned
    [ [("id", VStr "0"); ("label", VStr "Hiring SDRs"); ("description", VStr "");
       ("enabled", VBool true)];
      [("id", VStr "1"); ("label", VStr "New CRO"); ("description", VStr "");
       ("enabled", VBool false)];
      [("id", VStr "2"); ("label", VStr ""); ("description", VStr "");
       ("enabled", VBool true)] ].
Proof. by vm_compute. Qed.

Section buying_signals.
Implicit Types (s v : value) (xs : list value) (idx : nat) (signal : obj).

Lemma pretty_N_go_nonempty (x : N) (t : string) : t ≠ "" → pretty_N_go x t ≠ "".
Proof.
  revert t. induction (N.lt_wf_0 x) as [x _ IH]; intros t Ht.
  assert (x = 0 ∨ 0 < x)%N as [->|Hpos] by lia.
  - by rewrite pretty_N_go_0.
  - rewrite pretty_N_go_step by done. apply IH; [by apply N.div_lt | done].
Qed.

(** [String(idx)] is never the empty string. *)
Lemma pretty_nat_nonempty idx : pretty idx ≠ "".
Proof.
  unfold pretty, pretty_nat, pretty, pretty_N. case_decide; [done|].
  rewrite pretty_N_go_step by lia. by apply pretty_N_go_nonempty.
Qed.

Lemma truthy_index idx : truthy (VStr (pretty idx)) = true.
Proof.
  simpl. apply negb_true_iff, String.eqb_neq, pretty_nat_nonempty.
Qed.

Lemma js_or_truthy v d : truthy d = true → truthy (js_or v d) = true.
Proof. intros Hd. unfold js_or. by destruct (truthy v) eqn:Hv. Qed.

Lemma js_or_empty v : truthy (js_or v (VStr "")) = true ∨ js_or v (VStr "") = VStr "".
Proof. unfold js_or. destruct (truthy v) eqn:Hv; [by left | by right]. Qed.

Lemma buyingSignal_shaped s idx signal :
  buyingSignal s idx = Returned signal → signal_shaped signal.
Proof.
  assert (∀ e, (if negb (is_undefined e) then e else VBool true) ≠ VUndefined) as Henabled
    by (by intros []).
  destruct s as [| | | |label| |]; simpl; try done; intros [= <-];
    eexists _, _, _, _; (split; [reflexivity|]);
    split_and!; auto using truthy_index, js_or_truthy, js_or_empty.
  destruct (String.eqb_spec label ""); [right; by subst | left].
  simpl. by apply negb_true_iff, String.eqb_neq.
Qed.

(** A shaped signal passes through the callback unchanged, at any index. *)
Lemma buyingSignal_fixed signal idx :
  signal_shaped signal → buyingSignal (VObj signal) idx = Returned signal.
Proof.
  intros (id & label & description & enabled & -> & Hid & Hlabel & Hdesc & Henabled).
  set (signal := [("id", id); ("label", label); ("description", description);
                  ("enabled", enabled)]).
  assert (prop "id" (VObj signal) = id) as Eid by reflexivity.
  assert (prop "label" (VObj signal) = label) as Elabel by reflexivity.
  assert (prop "name" (VObj signal) = VUndefined) as Ename by reflexivity.
  assert (prop "description" (VObj signal) = description) as Edesc by reflexivity.
  assert (prop "enabled" (VObj signal) = enabled) as Eenabled by reflexivity.
  cbn [buyingSignal]. rewrite Eid, Elabel, Ename, Edesc, Eenabled.
  assert (js_or id (VStr (pretty idx)) = id) as -> by (unfold js_or; by rewrite Hid).
  assert (js_or (js_or label VUndefined) (VStr "") = label) as ->.
  { unfold js_or. destruct Hlabel as [Hlabel | ->]; [|done].
    rewrite Hlabel. by rewrite Hlabel. }
  assert (js_or description (VStr "") = description) as ->.
  { unfold js_or. by destruct Hdesc as [-> | ->]. }
  assert ((if negb (is_undefined enabled) then enabled else VBool true) = enabled) as ->
    by (by destruct enabled).
  done.
Qed.

Lemma map_buyingSignals_shaped idx xs out :
  map_buyingSignals idx xs = Returned out →
  length out = length xs ∧ Forall signal_shaped out.
Proof.
  revert idx out. induction xs as [|s xs IH]; intros idx out; simpl.
  - by intros [= <-].
  - destruct (buyingSignal s idx) as [signal|e] eqn:Hs; simpl; [|done].
    destruct (map_buyingSignals (S idx) xs) as [signals|e] eqn:Hxs; simpl; [|done].
    intros [= <-]. destruct (IH _ _ Hxs) as [Hlen Hall]. split; simpl.
    + by rewrite Hlen.
    + constructor; [by eapply buyingSignal_shaped | done].
Qed.

Lemma map_buyingSignals_returns idx xs :
  Forall (λ s, is_nullish s = false) xs → ∃ out, map_buyingSignals idx xs = Returned out.
Proof.
  intros Hxs. revert idx. induction Hxs as [|s xs Hs _ IH]; intros idx; simpl; [by eexists|].
  destruct (IH (S idx)) as [signals ->].
  destruct s; try done; simpl; by eexists.
Qed.

Lemma map_buyingSignals_throws idx xs :
  Exists (λ s, is_nullish s = true) xs → map_buyingSignals idx xs = Thrown TypeError.
Proof.
  intros Hxs. revert idx. induction Hxs as [s xs Hs|s xs _ IH]; intros idx; simpl.
  - by destruct s.
  - rewrite IH. by destruct s.
Qed.

Lemma map_buyingSignals_strings idx xs out i (label : string) :
  map_buyingSignals idx xs = Returned out →
  xs !! i = Some (VStr label) →
  out !! i = Some [("id", VStr (pretty (idx + i))); ("label", VStr label);
                   ("description", VStr ""); ("enabled", VBool true)].
Proof.
  revert idx out i. induction xs as [|s xs IH]; intros idx out i; simpl; [done|].
  destruct (buyingSignal s idx) as [signal|e] eqn:Hs; simpl; [|done].
  destruct (map_buyingSignals (S idx) xs) as [signals|e] eqn:Hxs; simpl; [|done].
  intros [= <-]. destruct i as [|i]; simpl.
  - intros [= ->]. simpl in Hs. injection Hs as <-. by rewrite Nat.add_0_r.
  - intros Hi. rewrite Nat.add_succ_r. by apply (IH (S idx)).
Qed.

Lemma map_buyingSignals_fixed idx (out : list obj) :
  Forall signal_shaped out → map_buyingSignals idx (VObj <$> out) = Returned out.
Proof.
  intros Hout. revert idx. induction Hout as [|signal out Hs _ IH]; intros idx; [done|].
  rewrite fmap_cons. cbn [map_buyingSignals].
  by rewrite buyingSignal_fixed, IH.
Qed.
End buying_signals.

(** X8. [transformBuyingSignals] returns the empty list for anything that
    is not an array.  For an array it throws a [TypeError] when an element
    is [null] or [undefined]; otherwise it returns one signal per element,
    in order, each with exactly the properties [id], [label],
    [description], [enabled], a truthy id and an [enabled] that is not
    [undefined]; a string element becomes the enabled signal labelled by
    the string, with its index as id. *)
Theorem transformBuyingSignals_shape (raw : value) :
  ((∀ xs, raw ≠ VArr xs) → transformBuyingSignals raw = Returned [])
  ∧ (∀ xs, raw = VArr xs →
       (Exists (λ s, is_nullish s = true) xs →
          transformBuyingSignals raw = Thrown TypeError)
       ∧ (Forall (λ s, is_nullish s = false) xs →
            ∃ out,
              transformBuyingSignals raw = Returned out
              ∧ length out = length xs
              ∧ Forall signal_shaped out
              ∧ ∀ i label, xs !! i = Some (VStr label) →
                  out !! i = Some [("id", VStr (pretty i)); ("label", VStr label);
                                   ("description", VStr ""); ("enabled", VBool true)])).
Proof.
  split.
  - intros Hraw. destruct raw; try done. by destruct (Hraw xs).
  - intros xs ->. unfold transformBuyingSignals. split.
    + apply map_buyingSignals_throws.
    + intros Hxs. destruct (map_buyingSignals_returns 0 xs Hxs) as [out Hout].
      exists out. destruct (map_buyingSignals_shaped _ _ _ Hout) as [Hlen Hall].
      split_and!; try done.
      intros i label Hi. by apply (map_buyingSignals_strings 0 xs out i label).
Qed.

(** X9. [transformBuyingSignals] is idempotent: whenever it returns, giving
    it its own result returns that result again. *)
Theorem transformBuyingSignals_idempotent (raw : value) (out : list obj) :
  transformBuyingSignals raw = Returned out →
  transformBuyingSignals (VArr (VObj <$> out)) = Returned out.
Proof.
  intros Hout. unfold transformBuyingSignals in *.
  apply map_buyingSignals_fixed. by eapply map_buyingSignals_shaped.
Qed.

Lemma transformBuyingSignals_idempotent_witness :
  ∃ out, transformBuyingSignals sampleSignals = Returned out
         ∧ transformBuyingSignals (VArr (VObj <$> out)) = Returned out.
Proof.
  eexists. split; [by vm_compute|].
  apply (transformBuyingSignals_idempotent sampleSignals). by vm_compute.
Defined.

(** ** The auth hook over a whole session *)

Section auth_session.
Implicit Types (a previous : AuthState) (w : World) (h : HookState).

Lemma crossing_calls_flag previous previous' a :
  isAuthenticated previous = isAuthenticated previous' →
  crossing_calls previous a = crossing_calls previous' a.
Proof. unfold crossing_calls. by intros ->. Qed.

Lemma render_remembers a previous h w :
  remembers h previous →
  remembers (render a (h, w)).1 a
  ∧ (isAuthenticated previous = isAuthenticated a → (render a (h, w)).2 = w)
  ∧ (isAuthenticated previous ≠ isAuthenticated a →
     (render a (h, w)).2
     = {| drafts := ∅; queryCache := [];
          calls := calls w ++ crossing_calls previous a |}).
Proof.
  intros [Hdeps Href]. unfold render. case_bool_decide as Hsame.
  - assert (isAuthenticated previous = isAuthenticated a) as Hflag
      by (destruct Hdeps as [Hdeps|Hdeps]; congruence).
    simpl. split_and!; [|done|done].
    split; [by right | congruence].
  - destruct (decide (isAuthenticated previous = isAuthenticated a)) as [Heq|Hne].
    + rewrite authChangeEffect_same by congruence. simpl.
      split_and!; [by split; [right|] | done | done].
    + rewrite authChangeEffect_crossing by congruence. simpl.
      split_and!; [by split; [right|] | done |].
      intros _. by rewrite (crossing_calls_flag _ previous).
Qed.

Lemma renders_calls states previous h w :
  remembers h previous →
  calls (renders states (h, w)).2 = calls w ++ crossings previous states
  ∧ (crossings previous states = [] → (renders states (h, w)).2 = w)
  ∧ (crossings previous states ≠ [] →
     drafts (renders states (h, w)).2 = ∅ ∧ queryCache (renders states (h, w)).2 = []).
Proof.
  revert previous h w. induction states as [|a states IH]; intros previous h w Hrem.
  - simpl. by rewrite app_nil_r.
  - change (renders (a :: states) (h, w)) with (renders states (render a (h, w))).
    destruct (render_remembers a previous h w Hrem) as (Hrem' & Hsame & Hflip).
    destruct (render a (h, w)) as [h' w'] eqn:Hrender. simpl in Hrem', Hsame, Hflip.
    destruct (IH a h' w' Hrem') as (Hcalls & Hnone & Hsome).
    cbn [crossings]. case_bool_decide as Hflag.
    + rewrite Hsame in * by done. done.
    + rewrite Hflip in * by done. simpl in Hcalls.
      split_and!.
      * by rewrite Hcalls, <-app_assoc.
      * intros Hnil. by apply app_eq_nil in Hnil as [? _].
      * intros _. destruct (decide (crossings a states = [])) as [Hnil|Hnot].
        -- by rewrite (Hnone Hnil).
        -- by apply Hsome.
Qed.

Lemma crossings_quiet states previous :
  isAuthenticated previous = false →
  crossings previous states = [] ↔ Forall (λ a, isAuthenticated a = false) states.
Proof.
  revert previous. induction states as [|a states IH]; intros previous Hprev.
  - split; [constructor | done].
  - cbn [crossings]. rewrite Forall_cons, Hprev. case_bool_decide as Hflag.
    + rewrite <-(IH a) by done. simpl. split; [by split | by intros [_ ?]].
    + split; [by intros [? _]%app_eq_nil | intros [Ha _]; congruence].
Qed.
End auth_session.

(** X10. Over a whole session the auth-change effect wipes once per flip
    of the flag and never otherwise: after any sequence of renders the
    calls made are the four calls of a crossing for each render whose flag
    differs from the flag before it, where the first render is compared
    with the logged-out initial state, so a session that starts logged in
    wipes on mount.  Without such a render drafts and cache are untouched;
    with one, both are empty at the end. *)
Theorem renders_wipe_once_per_flip (states : list AuthState) (w0 : World) :
  let after := (renders states (mountHook, w0)).2 in
  calls after = calls w0 ++ crossings initialAuthState states
  ∧ (Forall (λ a, isAuthenticated a = false) states → after = w0)
  ∧ (Exists (λ a, isAuthenticated a = true) states →
     drafts after = ∅ ∧ queryCache after = []).
Proof.
  assert (remembers mountHook initialAuthState) as Hrem by (split; [by left | done]).
  destruct (renders_calls states initialAuthState mountHook w0 Hrem)
    as (Hcalls & Hnone & Hsome).
  pose proof (crossings_quiet states) as Hquiet.
  split_and!; [done | |].
  - intros Hall. by apply Hnone, Hquiet.
  - intros Hex. apply Hsome. intros Hnil. apply Hquiet in Hnil; [|done].
    apply Exists_exists in Hex as (a & Hin & Ha).
    rewrite Forall_forall in Hnil. specialize (Hnil a Hin). congruence.
Qed.

Lemma renders_wipe_once_per_flip_witness :
  Exists (λ a, isAuthenticated a = true) [loggedIn; loggedInRefreshed]
  ∧ drafts (renders [loggedIn; loggedInRefreshed] (mountHook, sampleWorld)).2 = ∅
  ∧ Forall (λ a, isAuthenticated a = false) [loggedOut; loggedOut]
  ∧ (renders [loggedOut; loggedOut] (mountHook, sampleWorld)).2 = sampleWorld.
Proof.
  assert (Exists (λ a, isAuthenticated a = true) [loggedIn; loggedInRefreshed]) as Hex
    by (by left).
  assert (Forall (λ a, isAuthenticated a = false) [loggedOut; loggedOut]) as Hall
    by (by repeat constructor).
  split_and!.
  - exact Hex.
  - exact (proj1 (proj2 (proj2
      (renders_wipe_once_per_flip [loggedIn; loggedInRefreshed] sampleWorld)) Hex)).
  - exact Hall.
  - exact (proj1 (proj2
      (renders_wipe_once_per_flip [loggedOut; loggedOut] sampleWorld)) Hall).
Defined.

Section published_state.
Implicit Types (a d : AuthState) (g : Published).

Lemma same_deps_eq d a : same_deps d a = true → d = a.
Proof.
  unfold same_deps. destruct d as [da dt du], a as [aa at' au]; simpl.
  rewrite !andb_true_iff. intros [[Hflag Htoken] Huser].
  apply Bool.eqb_prop in Hflag. apply bool_decide_eq_true in Htoken.
  destruct du, au; try done. by subst.
Qed.

Lemma publish_current a g :
  published_inv g →
  globalAuthState (publish a g) = a ∧ published_inv (publish a g).
Proof.
  intros Hinv. unfold publish.
  destruct (publishedDeps g) as [d|] eqn:Hdeps.
  - destruct (same_deps d a) eqn:Hsame.
    + apply same_deps_eq in Hsame as <-. split; [by apply Hinv | done].
    + split; [done|]. by intros d' [= <-].
  - split; [done|]. by intros d' [= <-].
Qed.

Lemma publishes_inv states g : published_inv g → published_inv (publishes states g).
Proof.
  revert g. induction states as [|a states IH]; intros g Hinv; [done|].
  apply IH. by apply publish_current.
Qed.
End published_state.

(** X11. The global auth state always reflects the state rendered last:
    after any sequence of renders, [getAuthState()] returns the auth state
    of the last render, whether or not the publishing effect ran for it,
    and so [getApiBasePath()] routes by the flag and the token of that
    render. *)
Theorem global_state_is_last_rendered (states : list AuthState) (a : AuthState) :
  let g := globalAuthState (publishes (states ++ [a]) mountPublished) in
  getAuthState g = a
  ∧ (getApiBasePath g = "/api" ↔
     isAuthenticated a = true ∧ ∃ t, token a = Some t ∧ t ≠ "").
Proof.
  assert (globalAuthState (publishes (states ++ [a]) mountPublished) = a) as Hlast.
  { unfold publishes. rewrite fold_left_app. simpl.
    refine (proj1 (publish_current a _ _)).
    apply (publishes_inv states mountPublished). by intros d. }
  simpl. rewrite Hlast. split; [done|].
  unfold getApiBasePath, shouldUseAuthenticatedEndpoints, getAuthState.
  rewrite <-truthy_string_spec, <-andb_true_iff.
  by destruct (isAuthenticated a && truthy_string (token a)).
Qed.

Section token_fetch.
Implicit Types (s : TokenState) (e : TokenEvent).

Lemma or_undefined_nonempty (x : option string) : or_undefined x ≠ Some "".
Proof.
  unfold or_undefined. destruct (truthy_string x) eqn:Hx; [|done].
  apply truthy_string_spec in Hx as (t & -> & Ht). congruence.
Qed.

Lemma token_step_inv s e : token_inv s → token_inv (token_step s e).
Proof.
  intros Hinv. pose proof Hinv as (Hempty & Hnouser & Hfetch).
  destruct e as [user|result]; simpl.
  - destruct (can_fetch user) eqn:Hcan; split_and!; simpl; try done.
    intros ->. done.
  - destruct (fetching s) eqn:Hf; [|done]. split_and!; simpl; try done.
    + destruct result; [apply or_undefined_nonempty | done].
    + intros Hnone. rewrite Hnone in Hfetch. by specialize (Hfetch eq_refl).
Qed.

Lemma token_run_inv events : token_inv (token_run events).
Proof.
  unfold token_run. induction events as [|e events IH] using rev_ind.
  - by split_and!.
  - rewrite fold_left_app. by apply token_step_inv.
Qed.
End token_fetch.

(** X12. The token the hook holds is never the empty string, and it is
    [null] whenever there is no user: whatever sequence of user changes
    and settled fetches the hook has seen.  So the auth state it computes
    routes to ['/api'] exactly when there is a user and a token has been
    fetched for it; while the fetch is still in flight after a login from
    the logged-out state, requests go to ['/demo']. *)
Theorem token_state_invariant (events : list TokenEvent) :
  let s := token_run events in
  tokenState s ≠ Some ""
  ∧ (currentUser s = None → tokenState s = None)
  ∧ (getApiBasePath (authStateOf (currentUser s) (tokenState s)) = "/api" ↔
     is_Some (currentUser s) ∧ is_Some (tokenState s))
  ∧ (∀ user, currentUser s = None → can_fetch user = true →
       getApiBasePath
         (authStateOf (currentUser (token_step s (UserChanged user)))
                      (tokenState (token_step s (UserChanged user)))) = "/demo").
Proof.
  destruct (token_run_inv events) as (Hempty & Hnouser & _).
  simpl. split_and!; [done | done | |].
  - unfold getApiBasePath, shouldUseAuthenticatedEndpoints, getAuthState.
    destruct (currentUser (token_run events)) as [user|]; simpl.
    + destruct (tokenState (token_run events)) as [t|]; simpl.
      * assert (String.eqb t "" = false) as ->
          by (apply String.eqb_neq; congruence).
        simpl. split; [by split; eexists | done].
      * split; [done | by intros [_ [? ?]]].
    + split; [done | by intros [[? ?] _]].
  - intros user Hnone Hcan. simpl. rewrite Hcan. simpl.
    rewrite (Hnouser Hnone). by destruct user.
Qed.

(** ** What the normalizers keep *)

(** X13. Both access patterns work after normalization: for an entity
    with pairwise distinct property names whose key-normalized data is a
    mapping, the output holds the mapping under [data], holds every field
    of the mapping at the top level as well (except a field called [data],
    and for campaigns [type], which are re-asserted), and keeps every
    top-level field of the entity that the mapping does not mention; no
    property of the entity is lost. *)
Theorem normalize_flattens (x : obj) (fs : list (string * value)) :
  NoDup (keys x) →
  normalized_data x = VObj fs →
  obj_get "data" (normalizePersonaResponse x) = VObj fs
  ∧ obj_get "data" (normalizeCampaignResponse x) = VObj fs
  ∧ (∀ k v, obj_lookup k fs = Some v → k ≠ "data" →
       obj_lookup k (normalizePersonaResponse x) = Some v
       ∧ (k ≠ "type" → obj_lookup k (normalizeCampaignResponse x) = Some v))
  ∧ (∀ k, k ∉ keys fs → k ≠ "data" →
       obj_lookup k (normalizePersonaResponse x) = obj_lookup k x
       ∧ (k ≠ "type" → obj_lookup k (normalizeCampaignResponse x) = obj_lookup k x))
  ∧ (∀ k, k ∈ keys x →
       k ∈ keys (normalizePersonaResponse x) ∧ k ∈ keys (normalizeCampaignResponse x)).
Proof.
  intros Hnd Hfs.
  assert (∀ k, k ≠ "type" →
            obj_lookup k (normalizeCampaignResponse x)
            = obj_lookup k (normalizePersonaResponse x)) as Hcamp.
  { intros k Hk. rewrite normalizeCampaignResponse_persona, obj_lookup_set.
    by rewrite decide_False. }
  assert (∀ k, k ≠ "data" →
            obj_lookup k (normalizePersonaResponse x)
            = match obj_lookup k fs with
              | Some v => Some v
              | None => obj_lookup k x
              end) as Hflat.
  { intros k Hk. rewrite normalize_unprotected, Hfs by done. simpl.
    rewrite obj_lookup_reverse; [done | by eapply normalized_data_NoDup]. }
  split_and!.
  - by rewrite normalizePersonaResponse_data.
  - by rewrite normalizeCampaignResponse_data.
  - intros k v Hv Hk. rewrite (Hflat k Hk), Hv. split; [done|].
    intros Hk'. by rewrite Hcamp, Hflat, Hv.
  - intros k Hnin Hk. apply obj_lookup_None in Hnin.
    rewrite (Hflat k Hk), Hnin. split; [done|].
    intros Hk'. by rewrite Hcamp, Hflat, Hnin.
  - intros k Hin.
    assert (k ∈ keys (normalizePersonaResponse x)) as Hp.
    { unfold normalizePersonaResponse. apply elem_of_keys_set. right.
      apply elem_of_keys_spread. left. apply elem_of_keys_spread. by right. }
    split; [done|]. rewrite normalizeCampaignResponse_persona.
    apply elem_of_keys_set. by right.
Qed.

Lemma normalize_flattens_witness :
  NoDup (keys scenario_raw)
  ∧ normalized_data scenario_raw = VObj [("targetPersonaName", VStr "VP Sales")]
  ∧ obj_lookup "targetPersonaName" (normalizePersonaResponse scenario_raw)
    = Some (VStr "VP Sales")
  ∧ obj_lookup "id" (normalizeCampaignResponse scenario_raw) = Some (VStr "1").
Proof.
  assert (NoDup (keys scenario_raw)) as Hnd
    by (apply (bool_decide_unpack _); vm_compute; exact I).
  assert (normalized_data scenario_raw = VObj [("targetPersonaName", VStr "VP Sales")])
    as Hfs by reflexivity.
  destruct (normalize_flattens scenario_raw _ Hnd Hfs) as (_ & _ & Hflat & Hkeep & _).
  split_and!; [exact Hnd | exact Hfs | |].
  - exact (proj1 (Hflat "targetPersonaName" (VStr "VP Sales") eq_refl ltac:(discriminate))).
  - refine (proj2 (Hkeep "id" _ ltac:(discriminate)) ltac:(discriminate)).
    apply (bool_decide_unpack _). vm_compute. exact I.
Defined.

(** ** Firmographics and the criteria table *)

Example labelOf_samples :
  labelOf "business_model" = "Business Model" ∧ labelOf "funding_stage" = "Funding Stage"
  ∧ labelOf "b2b_saas" = "B2b Saas" ∧ fieldKeyOf "Business  Model" = "business_model".
Proof. by vm_compute. Qed.

Example firmographics_sample :
  transformCriteriaToFirmographics
    (transformFirmographicsToCriteria (VObj sampleFirmographics))
  = [("industry", VArr [VStr "SaaS"; VStr "Fintech"]);
     ("funding_stage", VStr "Series A");
     ("keywords", VStr "api")].
Proof. by vm_compute. Qed.

Section label_round_trip.
Implicit Types (c : ascii) (s : string).

Lemma key_char_cases c :
  key_char c = true →
  c = "_"%char
  ∨ (Ascii.eqb c "_" = false ∧ is_word c = true ∧ is_space c = false
     ∧ ascii_lower c = c ∧ ascii_lower (to_upper c) = c).
Proof.
  destruct c as [[] [] [] [] [] [] [] []]; vm_compute; intros H;
    first [discriminate H | by left | by right].
Qed.

(** Going to the label and back gives the key, also in the middle of a
    key: after a word character or not, inside a run of spaces or not, as
    long as a run is not continued by an underscore. *)
Lemma fieldKey_of_label s (after_word in_run : bool) :
  normal_key s = true →
  (in_run = true → match s with
                   | String d _ => Ascii.eqb d "_" = false
                   | EmptyString => True
                   end) →
  spaces_to_underscore in_run
    (lower (capitalize_words after_word (underscores_to_spaces s))) = s.
Proof.
  revert after_word in_run. induction s as [|c s IH]; intros after_word in_run; [done|].
  cbn [normal_key]. rewrite !andb_true_iff, negb_true_iff.
  intros [[Hc Hpair] Hs] Hrun.
  destruct (key_char_cases c Hc) as [-> | (Hne & Hword & Hspace & Hlow & Hup)].
  - destruct in_run; [by specialize (Hrun eq_refl)|].
    simpl. f_equal. apply IH; [done|]. intros _.
    destruct s as [|d s]; [done|]. simpl in Hpair. by destruct (Ascii.eqb d "_").
  - cbn [underscores_to_spaces capitalize_words lower]. rewrite Hne, Hword.
    assert (ascii_lower (if true && negb after_word then to_upper c else c) = c) as ->
      by (by destruct after_word).
    cbn [spaces_to_underscore]. rewrite Hspace. f_equal. by apply IH.
Qed.

Lemma fieldKeyOf_labelOf s : normal_key s = true → fieldKeyOf (labelOf s) = s.
Proof. intros Hs. by apply fieldKey_of_label. Qed.

Lemma normal_key_not_proto s : normal_key s = true → s ≠ "__proto__".
Proof. intros Hs ->. by vm_compute in Hs. Qed.
End label_round_trip.

Section criteria_table.
Implicit Types (fs : obj) (kv : string * value) (rows : list Criterion).

Lemma criteria_collected (es : obj) (acc : list Criterion) :
  fold_left
    (λ criteria kv,
       if truthy kv.2 && is_array_or_string kv.2 then
         let label := labelOf kv.1 in
         let color := colorOf kv.1 in
         let values := safeMapArray kv.2 color in
         if (0 <? length values)%nat
         then criteria ++ [ {| crit_label := label; crit_values := values;
                               crit_id := None |} ]
         else criteria
       else criteria)
    es acc
  = acc ++ omap criterionOf es.
Proof.
  revert acc. induction es as [|kv es IH]; intros acc.
  - simpl. by rewrite app_nil_r.
  - cbn [fold_left omap list_omap]. rewrite IH. unfold criterionOf at 2.
    destruct (truthy kv.2 && is_array_or_string kv.2); simpl; [|done].
    destruct (0 <? length (safeMapArray kv.2 (colorOf kv.1)))%nat; [|done].
    by rewrite <-app_assoc.
Qed.

Lemma transformFirmographicsToCriteria_rows (firmographics : value) :
  truthy firmographics = true →
  transformFirmographicsToCriteria firmographics
  = imap (λ index item, {| crit_label := crit_label item;
                           crit_values := crit_values item;
                           crit_id := Some (pretty index) |})
      (omap criterionOf (spread_entries firmographics)).
Proof.
  intros Ht. unfold transformFirmographicsToCriteria. rewrite Ht. simpl.
  by rewrite criteria_collected.
Qed.

Lemma transformCriteriaToFirmographics_fold rows :
  transformCriteriaToFirmographics rows = fold_left criteria_step rows [].
Proof. done. Qed.

(** The way back does not read the ids. *)
Lemma criteria_step_ids (g : nat → Criterion → Criterion) rows (acc : obj) :
  (∀ i row, crit_label (g i row) = crit_label row
            ∧ crit_values (g i row) = crit_values row) →
  fold_left criteria_step (imap g rows) acc = fold_left criteria_step rows acc.
Proof.
  revert g acc. induction rows as [|row rows IH]; intros g acc Hg; [done|].
  cbn [imap fold_left]. rewrite IH by (intros i r; apply Hg).
  f_equal. unfold criteria_step. by destruct (Hg 0 row) as [-> ->].
Qed.

Lemma texts_of_items (items : list value) (color : Color) :
  map val_text (map (λ item, {| val_text := item; val_color := color |}) items) = items.
Proof. induction items as [|item items IH]; simpl; [done|]. by rewrite IH. Qed.

Lemma criteria_step_entry kv (acc : obj) :
  normal_key kv.1 = true →
  match criterionOf kv with
  | Some row => criteria_step acc row
  | None => acc
  end
  = match survives kv.2 with
    | Some v => obj_set kv.1 v acc
    | None => acc
    end.
Proof.
  intros Hkey. destruct kv as [k v]. simpl in *.
  assert (∀ v' acc', assign (fieldKeyOf (labelOf k)) v' acc' = obj_set k v' acc') as Hassign.
  { intros v' acc'. rewrite fieldKeyOf_labelOf by done. unfold assign.
    rewrite decide_False; [done | by apply normal_key_not_proto]. }
  unfold criterionOf. destruct v as [| |b|n|s|items|]; simpl; try done.
  - by destruct b.
  - by destruct (negb (n =? 0)%Z).
  - destruct (negb (String.eqb s "")); simpl; [|done].
    unfold criteria_step. simpl. apply Hassign.
  - destruct items as [|x [|y items]]; simpl; [done| |].
    + unfold criteria_step. simpl. apply Hassign.
    + unfold criteria_step. cbn [crit_values crit_label map val_text].
      rewrite texts_of_items. apply Hassign.
Qed.

Lemma round_trip_entries_cons kv fs :
  round_trip_entries (kv :: fs)
  = match survives kv.2 with
    | Some v => (kv.1, v) :: round_trip_entries fs
    | None => round_trip_entries fs
    end.
Proof. unfold round_trip_entries. cbn [omap list_omap]. by destruct (survives kv.2). Qed.

Lemma criteria_of_cons kv fs :
  omap criterionOf (kv :: fs)
  = match criterionOf kv with
    | Some row => row :: omap criterionOf fs
    | None => omap criterionOf fs
    end.
Proof. done. Qed.

Lemma criteria_back fs (acc : obj) :
  Forall (λ kv, normal_key kv.1 = true) fs →
  fold_left criteria_step (omap criterionOf fs) acc = spread acc (round_trip_entries fs).
Proof.
  intros Hkeys. revert acc. induction Hkeys as [|kv fs Hkey _ IH]; intros acc; [done|].
  rewrite criteria_of_cons, round_trip_entries_cons.
  pose proof (criteria_step_entry kv acc Hkey) as Hstep.
  destruct (criterionOf kv) as [row|]; destruct (survives kv.2) as [v|].
  - cbn [fold_left]. rewrite IH, Hstep. done.
  - cbn [fold_left]. by rewrite IH, Hstep.
  - rewrite IH. unfold spread at 2. cbn [fold_left fst snd]. by rewrite <-Hstep.
  - apply IH.
Qed.

Lemma keys_round_trip fs k : k ∈ keys (round_trip_entries fs) → k ∈ keys fs.
Proof.
  induction fs as [|[k0 v0] fs IH]; [done|].
  rewrite round_trip_entries_cons, (keys_cons k0 v0). cbn [fst snd].
  rewrite elem_of_cons. destruct (survives v0) as [v|].
  - rewrite keys_cons, elem_of_cons. intros [->|Hin]; [by left | right; by apply IH].
  - intros Hin. right. by apply IH.
Qed.

Lemma NoDup_round_trip fs : NoDup (keys fs) → NoDup (keys (round_trip_entries fs)).
Proof.
  induction fs as [|[k v] fs IH]; [done|].
  rewrite keys_cons, NoDup_cons. intros [Hnin Hnd].
  rewrite round_trip_entries_cons. cbn [fst snd].
  destruct (survives v) as [v'|]; [|by apply IH].
  rewrite keys_cons. apply NoDup_cons. split; [|by apply IH].
  intros Hin. by apply Hnin, keys_round_trip.
Qed.

Lemma round_trip_all fs :
  Forall (λ kv, survives kv.2 = Some kv.2) fs → round_trip_entries fs = fs.
Proof.
  induction 1 as [|[k v] fs Hkv _ IH]; [done|].
  rewrite round_trip_entries_cons. cbn [fst snd] in *. by rewrite Hkv, IH.
Qed.
End criteria_table.

(** X14. Firmographics survive the criteria table and back as follows.  For
    a firmographics mapping with pairwise distinct keys made of lower-case
    letters, digits and single underscores,
    [transformCriteriaToFirmographics(transformFirmographicsToCriteria(f))]
    keeps, in order and under the same keys, every non-empty string and
    every array of two or more elements, turns an array of one element
    into that element, and drops everything else (empty strings, empty
    arrays, numbers, booleans, [null], nested objects).  So a mapping of
    non-empty strings and arrays of two or more comes back unchanged. *)
Theorem firmographics_round_trip (fs : obj) :
  NoDup (keys fs) →
  Forall (λ kv, normal_key kv.1 = true) fs →
  transformCriteriaToFirmographics (transformFirmographicsToCriteria (VObj fs))
  = round_trip_entries fs
  ∧ (Forall (λ kv, survives kv.2 = Some kv.2) fs →
     transformCriteriaToFirmographics (transformFirmographicsToCriteria (VObj fs)) = fs).
Proof.
  intros Hnd Hkeys.
  assert (transformCriteriaToFirmographics (transformFirmographicsToCriteria (VObj fs))
          = round_trip_entries fs) as Hback.
  { rewrite transformFirmographicsToCriteria_rows by done.
    rewrite transformCriteriaToFirmographics_fold, criteria_step_ids by done.
    simpl spread_entries. rewrite criteria_back by done.
    apply spread_nil_copy. by apply NoDup_round_trip. }
  split; [done|]. intros Hall. by rewrite Hback, round_trip_all.
Qed.

Lemma firmographics_round_trip_witness :
  NoDup (keys sampleFirmographics)
  ∧ Forall (λ kv, normal_key kv.1 = true) sampleFirmographics
  ∧ transformCriteriaToFirmographics
      (transformFirmographicsToCriteria (VObj sampleFirmographics))
    = [("industry", VArr [VStr "SaaS"; VStr "Fintech"]);
       ("funding_stage", VStr "Series A");
       ("keywords", VStr "api")].
Proof.
  assert (NoDup (keys sampleFirmographics)) as Hnd
    by (apply (bool_decide_unpack _); vm_compute; exact I).
  assert (Forall (λ kv, normal_key kv.1 = true) sampleFirmographics) as Hkeys
    by (repeat constructor).
  split_and!; [exact Hnd | exact Hkeys |].
  exact (proj1 (firmographics_round_trip sampleFirmographics Hnd Hkeys)).
Defined.

Section criteria_rows.
Implicit Types (rows : list Criterion) (kv : string * value).

Lemma criterionOf_values kv row : criterionOf kv = Some row → crit_values row ≠ [].
Proof.
  unfold criterionOf.
  destruct (truthy kv.2 && is_array_or_string kv.2); simpl; [|done].
  destruct (0 <? length (safeMapArray kv.2 (colorOf kv.1)))%nat eqn:Hlen; [|done].
  intros [= <-]. simpl. intros Hnil. rewrite Hnil in Hlen. done.
Qed.

Lemma criterionOf_label kv row :
  criterionOf kv = Some row →
  crit_label row = labelOf kv.1
  ∧ Forall (λ cv, val_color cv = colorOf kv.1) (crit_values row).
Proof.
  unfold criterionOf.
  destruct (_ && _ && _); [|done]. intros [= <-]. simpl. split; [done|].
  destruct kv as [k v]. simpl.
  destruct v as [| | | |s|items|]; simpl; try constructor.
  - destruct (negb (String.eqb s "")); by repeat constructor.
  - induction items; by constructor.
Qed.

Lemma ids_of_rows (cs : list Criterion) :
  crit_id <$> imap (λ index item, {| crit_label := crit_label item;
                                     crit_values := crit_values item;
                                     crit_id := Some (pretty index) |}) cs
  = (λ i, Some (pretty i)) <$> seq 0 (length cs).
Proof.
  apply list_eq. intros i.
  rewrite !list_lookup_fmap, list_lookup_imap.
  destruct (cs !! i) as [c|] eqn:Hc; simpl.
  - by rewrite lookup_seq_lt by (by eapply lookup_lt_Some).
  - apply lookup_ge_None in Hc.
    by rewrite (proj2 (lookup_ge_None _ _)) by (by rewrite length_seq).
Qed.
End criteria_rows.

(** X15. The rows [transformFirmographicsToCriteria] builds: none for a
    falsy argument; otherwise every row stems from an entry of the
    mapping, is labelled by the Title Case of that entry's key, coloured
    by that key throughout, and has at least one value; and the id of a
    row is its position in the result as a decimal string, so the ids
    are pairwise distinct. *)
Theorem criteria_rows_wellformed (firmographics : value) :
  let rows := transformFirmographicsToCriteria firmographics in
  (truthy firmographics = false → rows = [])
  ∧ Forall (λ row, crit_values row ≠ []
                   ∧ ∃ kv, kv ∈ spread_entries firmographics
                           ∧ crit_label row = labelOf kv.1
                           ∧ Forall (λ cv, val_color cv = colorOf kv.1)
                               (crit_values row)) rows
  ∧ crit_id <$> rows = (λ i, Some (pretty i)) <$> seq 0 (length rows)
  ∧ NoDup (crit_id <$> rows).
Proof.
  simpl. destruct (truthy firmographics) eqn:Ht.
  - rewrite transformFirmographicsToCriteria_rows by done.
    assert (crit_id <$> imap (λ index item, {| crit_label := crit_label item;
                                               crit_values := crit_values item;
                                               crit_id := Some (pretty index) |})
                          (omap criterionOf (spread_entries firmographics))
            = (λ i, Some (pretty i))
                <$> seq 0 (length (imap (λ index item,
                                           {| crit_label := crit_label item;
                                              crit_values := crit_values item;
                                              crit_id := Some (pretty index) |})
                                     (omap criterionOf (spread_entries firmographics)))))
      as Hids by (by rewrite length_imap, ids_of_rows).
    split_and!; [done | | done |].
    + apply Forall_lookup. intros i row Hrow.
      rewrite list_lookup_imap in Hrow.
      destruct (omap criterionOf (spread_entries firmographics) !! i) as [c|] eqn:Hc;
        [|done].
      injection Hrow as <-. simpl.
      apply list_elem_of_lookup_2, list_elem_of_omap in Hc as (kv & Hin & Hkv).
      split; [by eapply criterionOf_values|].
      exists kv. split; [done|]. by apply criterionOf_label.
    + rewrite Hids. apply NoDup_fmap_2_strong; [|apply NoDup_seq].
      intros i j _ _ [= Hij]. by apply (inj pretty) in Hij.
  - unfold transformFirmographicsToCriteria. rewrite Ht. simpl.
    split_and!; [done | constructor | done | constructor].
Qed.
